(** * proc_module: a /proc file backed by an append-only list of byte chunks

    Shallow embedding of [proc_module.c] and verification of its read and
    write file operations.

    The kernel state the module touches is modelled explicitly:
    - the slab heap, a finite map from addresses to kernel objects
      ([kmalloc], [kzalloc], [kmemdup], [kfree]);
    - the global list [proc_entry_list_head] (the addresses of the linked
      nodes, in list order) and the counter [proc_entry_list_size].

    The module runs in one kernel thread at a time in this model: the
    reader/writer lock calls bracket the code they protect and are not
    represented.

    C integers are mathematical integers with the conversions written out:
    [size_t], [ssize_t] and [unsigned long] are [size_bits] wide, [loff_t]
    is a 64-bit [long long]. *)

From Stdlib Require Import ZArith Lia List Bool.
From Stdlib Require Import Strings.String Strings.Byte.
From stdpp Require Import base option list gmap fin_maps.

Open Scope Z_scope.

(** ** Kernel objects and state *)

(** Kernel addresses; [NULL] is the [None] of [option loc]. *)
Definition loc := positive.

(** [struct proc_entry_list]: the [list_head] member is the node's position
    in [proc_entry_list_head]. *)
Record proc_entry_list := {
  buf : loc;
  buf_size : Z;
}.

Inductive kobj :=
| KRaw                          (* kmalloc'ed memory that was not written yet *)
| KBytes (bs : list byte)       (* a char array *)
| KEntry (e : proc_entry_list). (* an initialised struct proc_entry_list *)

Record kstate := {
  kheap : gmap loc kobj;
  proc_entry_list_head : list loc;
  proc_entry_list_size : Z;
}.

Definition set_kheap (f : gmap loc kobj -> gmap loc kobj) (k : kstate) : kstate :=
  {| kheap := f (kheap k);
     proc_entry_list_head := proc_entry_list_head k;
     proc_entry_list_size := proc_entry_list_size k |}.

Definition set_head (f : list loc -> list loc) (k : kstate) : kstate :=
  {| kheap := kheap k;
     proc_entry_list_head := f (proc_entry_list_head k);
     proc_entry_list_size := proc_entry_list_size k |}.

Definition set_size (f : Z -> Z) (k : kstate) : kstate :=
  {| kheap := kheap k;
     proc_entry_list_head := proc_entry_list_head k;
     proc_entry_list_size := f (proc_entry_list_size k) |}.

(** Length of a byte array as a C integer. *)
Definition blen (bs : list byte) : Z := Z.of_nat (Datatypes.length bs).

(** Error numbers of [errno-base.h]. *)
Definition ENOMEM : Z := 12.
Definition EFAULT : Z := 14.
Definition EINVAL : Z := 22.

(** ** Kernel computations

    A computation runs on the kernel state and either returns a value and
    the new state, or is undefined ([None]): a dereference of an address
    that holds no object of the expected kind, an access outside an array,
    or a [kfree] of an address that is not allocated. *)
Definition K (A : Type) : Type := kstate -> option (A * kstate).

Definition kret {A} (a : A) : K A := fun k => Some (a, k).

Definition kbind {A B} (m : K A) (f : A -> K B) : K B :=
  fun k => match m k with
           | Some (a, k') => f a k'
           | None => None
           end.

Definition kget {A} (f : kstate -> A) : K A := fun k => Some (f k, k).

Definition kmodify (f : kstate -> kstate) : K unit := fun k => Some (tt, f k).

Declare Scope kernel_scope.
Delimit Scope kernel_scope with kernel.
Notation "x <- m ;; f" := (kbind m (fun x => f))
  (at level 100, m at next level, right associativity) : kernel_scope.
Notation "m ;;; f" := (kbind m (fun _ => f))
  (at level 100, right associativity) : kernel_scope.
Open Scope kernel_scope.

Section ProcModule.

(** Width in bits of [size_t], [ssize_t] and [unsigned long]: 64 on an LP64
    kernel, 32 on an ILP32 one. *)
Variable size_bits : Z.

(** The address the slab allocator hands out next, given the live objects. *)
Variable slab_addr : gmap loc kobj -> loc.

(** *** Integer conversions *)

Definition SIZE_MAX : Z := 2 ^ size_bits - 1.
Definition SSIZE_MAX : Z := 2 ^ (size_bits - 1) - 1.
Definition LOFF_MAX : Z := 2 ^ 63 - 1.

(** Conversion to [size_t]. *)
Definition to_size (x : Z) : Z := x mod 2 ^ size_bits.

(** Conversion to [ssize_t]. *)
Definition to_ssize (x : Z) : Z :=
  (x + 2 ^ (size_bits - 1)) mod 2 ^ size_bits - 2 ^ (size_bits - 1).

(** Conversion to [loff_t]. *)
Definition to_loff (x : Z) : Z := (x + 2 ^ 63) mod 2 ^ 64 - 2 ^ 63.

(** The usual arithmetic conversions for an operator with one [loff_t] and
    one [size_t] operand: where [size_t] is narrower than [long long] both
    become [long long]; where it is as wide, both become
    [unsigned long long]. [common] is that conversion, and also the
    wrap-around of a result computed in the common type. *)
Definition common (x : Z) : Z :=
  if size_bits <? 64 then to_loff x else x mod 2 ^ 64.

(** *** Slab allocator *)

(** An allocation that succeeds ([ok]) puts the object [o] at the address
    the allocator chooses; one that fails returns [NULL]. *)
Definition kalloc (ok : bool) (o : kobj) : K (option loc) :=
  if ok then
    p <- kget (fun k => slab_addr (kheap k)) ;;
    kmodify (set_kheap (insert p o)) ;;;
    kret (Some p)
  else kret None.

Definition kmalloc (ok : bool) : K (option loc) := kalloc ok KRaw.

Definition kzalloc (ok : bool) (size : Z) : K (option loc) :=
  kalloc ok (KBytes (replicate (Z.to_nat size) x00)).

Definition kfree (p : loc) : K unit :=
  fun k => match kheap k !! p with
           | Some _ => Some (tt, set_kheap (delete p) k)
           | None => None
           end.

(** The [n] bytes at index [idx] of the array at [p]. *)
Definition load_bytes (p : loc) (idx n : Z) : K (list byte) :=
  fun k => match kheap k !! p with
           | Some (KBytes bs) =>
               if (0 <=? idx) && (0 <=? n) && (idx + n <=? blen bs)
               then Some (take (Z.to_nat n) (drop (Z.to_nat idx) bs), k)
               else None
           | _ => None
           end.

(** [entry->buf_size] and [entry->buf] of the node at [p]. *)
Definition load_entry (p : loc) : K proc_entry_list :=
  fun k => match kheap k !! p with
           | Some (KEntry e) => Some (e, k)
           | _ => None
           end.

Definition store_entry (p : loc) (e : proc_entry_list) : K unit :=
  fun k => match kheap k !! p with
           | Some _ => Some (tt, set_kheap (insert p (KEntry e)) k)
           | None => None
           end.

(** [kmemdup(src, len, gfp)]: allocate, then copy. *)
Definition kmemdup (ok : bool) (src : loc) (len : Z) : K (option loc) :=
  if ok then
    bs <- load_bytes src 0 len ;;
    kalloc true (KBytes bs)
  else kret None.

(** *** Transfers across the user/kernel boundary

    Both return the number of bytes that could NOT be copied. The user side
    of a transfer is described by how far the user address range is
    accessible from the given pointer on. *)

(** [copy_from_user(to, from, n)]: [from] lists the bytes readable at the
    user pointer. The bytes that could not be read are zeroed in [to]. *)
Definition copy_from_user (to : loc) (from : list byte) (n : Z) : K Z :=
  fun k => match kheap k !! to with
           | Some (KBytes bs) =>
               if (0 <=? n) && (n <=? blen bs) then
                 let copied := Z.min n (blen from) in
                 let bs' := take (Z.to_nat copied) from
                            ++ replicate (Z.to_nat (n - copied)) x00
                            ++ drop (Z.to_nat n) bs in
                 Some (n - copied, set_kheap (insert to (KBytes bs')) k)
               else None
           | _ => None
           end.

(** [copy_to_user(to, from + idx, n)]: [room] is the number of bytes
    writable at the user pointer. Returns the count not copied and the bytes
    that arrived in the user buffer. *)
Definition copy_to_user (room : nat) (from : loc) (idx n : Z) : K (Z * list byte) :=
  bs <- load_bytes from idx n ;;
  let copied := Z.min n (Z.of_nat room) in
  kret (n - copied, take (Z.to_nat copied) bs).

(** ** read_proc_module *)

(** What a call of the read operation leaves behind: the return value, the
    caller's [*offset], and the bytes stored into [usrbuf]. *)
Record rd_result := {
  rd_retval : Z;
  rd_offset : Z;
  rd_data : list byte;
}.

(** [read_size = next_pos - off > length ? length : next_pos - off]. *)
Definition rd_read_size (next_pos off length : Z) : Z :=
  let avail := common (common next_pos - common off) in
  to_size (if avail >? common length then length else avail).

(** The index into the array [entry->buf] of the address
    [entry->buf + off - pos]; pointer arithmetic wraps at the pointer
    width. *)
Definition rd_index (off pos : Z) : Z := to_size (off - pos).

(** The body of the loop once the entry covering [off] is found, up to
    [goto rd_end]. [offset] is [*offset], [off] its copy taken on entry. *)
Definition rd_copy (room : nat) (length : Z) (offset off : Z)
    (entry : proc_entry_list) (pos next_pos : Z) : K rd_result :=
  let read_size := rd_read_size next_pos off length in
  copied <- copy_to_user room (buf entry) (rd_index off pos) read_size ;;
  let remaining_len := fst copied in
  if remaining_len =? read_size then
    kret {| rd_retval := - EFAULT; rd_offset := offset; rd_data := snd copied |}
  else
    let actual_size := to_size (read_size - remaining_len) in
    kret {| rd_retval := to_ssize actual_size;
            rd_offset := to_loff (offset + actual_size);
            rd_data := snd copied |}.

(** The [list_for_each_entry] loop. [Some r]: the loop was left by
    [goto rd_end] with result [r]; [None]: the loop ran off the end of the
    list. *)
Fixpoint rd_list_for_each_entry (room : nat) (length : Z) (offset off : Z)
    (l : list loc) (pos : Z) : K (option rd_result) :=
  match l with
  | [] => kret None
  | p :: l' =>
      entry <- load_entry p ;;
      let next_pos := to_size (pos + buf_size entry) in
      if (common pos <=? common off) && (common off <? common next_pos) then
        r <- rd_copy room length offset off entry pos next_pos ;;
        kret (Some r)
      else rd_list_for_each_entry room length offset off l' next_pos
  end.

Definition read_proc_module (room : nat) (length : Z) (offset : Z) : K rd_result :=
  let off := offset in
  let retval := 0 in
  size <- kget proc_entry_list_size ;;
  if (length =? 0) || (common off >=? common size) then
    kret {| rd_retval := retval; rd_offset := offset; rd_data := [] |}
  else if off <? 0 then
    kret {| rd_retval := - EINVAL; rd_offset := offset; rd_data := [] |}
  else
    head <- kget proc_entry_list_head ;;
    r <- rd_list_for_each_entry room length offset off head 0 ;;
    match r with
    | Some r => kret r
    | None => kret {| rd_retval := retval; rd_offset := offset; rd_data := [] |}
    end.

(** ** write_proc_module *)

(** Outcome of the three allocations of one call. *)
Record gfp_outcome := {
  entry_ok : bool;   (* kmalloc(sizeof(struct proc_entry_list)) *)
  tmp_ok : bool;     (* kzalloc(length) *)
  dup_ok : bool;     (* kmemdup(tmp, actual_size) *)
}.

Record wr_result := {
  wr_retval : Z;
  wr_offset : Z;
}.

(** The error exits [tmp_err] and [cpy_err]. *)
Definition tmp_err (new_entry : loc) (errval : Z) (offset : Z) : K wr_result :=
  kfree new_entry ;;;
  kret {| wr_retval := errval; wr_offset := offset |}.

Definition cpy_err (tmp new_entry : loc) (errval : Z) (offset : Z) : K wr_result :=
  kfree tmp ;;;
  tmp_err new_entry errval offset.

(** [list_add_tail(new, &proc_entry_list_head)] stores into the [list]
    member of [new] and into that of the node that was last before
    ([prev->next = new]; the head itself when the list is empty): both must
    hold a [struct proc_entry_list]. *)
Definition list_add_tail (new : loc) : K unit :=
  head <- kget proc_entry_list_head ;;
  load_entry new ;;;
  match last head with
  | Some prev =>
      load_entry prev ;;;
      kmodify (set_head (fun l => l ++ [new]))
  | None => kmodify (set_head (fun l => l ++ [new]))
  end.

(** [usrbuf] lists the bytes readable at the user pointer. The two
    assignments to the fields of [*new_entry] are one store, made once both
    values are known; on the path where [kmemdup] fails the node is freed
    without having been read. *)
Definition write_proc_module (gfp : gfp_outcome) (usrbuf : list byte)
    (length : Z) (offset : Z) : K wr_result :=
  let off := offset in
  if length =? 0 then
    kret {| wr_retval := 0; wr_offset := offset |}
  else if off <? 0 then
    kret {| wr_retval := - EINVAL; wr_offset := offset |}
  else
    new_entry <- kmalloc (entry_ok gfp) ;;
    match new_entry with
    | None => kret {| wr_retval := - ENOMEM; wr_offset := offset |}
    | Some new_entry =>
        tmp <- kzalloc (tmp_ok gfp) length ;;
        match tmp with
        | None => tmp_err new_entry (- ENOMEM) offset
        | Some tmp =>
            remaining_len <- copy_from_user tmp usrbuf length ;;
            if remaining_len =? length then
              cpy_err tmp new_entry (- EFAULT) offset
            else
              let actual_size := to_size (length - remaining_len) in
              dup <- kmemdup (dup_ok gfp) tmp actual_size ;;
              match dup with
              | None => cpy_err tmp new_entry (- ENOMEM) offset
              | Some dup =>
                  store_entry new_entry
                    {| buf := dup; buf_size := actual_size |} ;;;
                  kfree tmp ;;;
                  list_add_tail new_entry ;;;
                  kmodify (set_size (fun s => to_size (s + actual_size))) ;;;
                  kret {| wr_retval := to_ssize actual_size;
                          wr_offset := to_loff (offset + actual_size) |}
              end
        end
    end.

(** ** init_proc_module and exit_proc_module *)

(** [proc_create] is the kernel's; [created] tells whether it returned an
    entry. *)
Definition init_proc_module (created : bool) : K Z :=
  if created then
    kmodify (set_head (fun _ => [])) ;;;
    kmodify (set_size (fun _ => 0)) ;;;
    kret 0
  else kret (- ENOMEM).

(** [list_del(pos)] in the loop below: [pos] is the first node left, so
    the stores go to the head and to the node after [pos], which the loop
    loads in its next round. *)
Definition list_del (entry : loc) : K unit :=
  kmodify (set_head (filter (fun q => q <> entry))).

(** The [list_for_each_safe] loop over the nodes [l]. *)
Fixpoint exit_list_for_each_safe (l : list loc) : K unit :=
  match l with
  | [] => kret tt
  | pos :: n =>
      tmp <- load_entry pos ;;
      list_del pos ;;;
      kfree (buf tmp) ;;;
      kfree pos ;;;
      exit_list_for_each_safe n
  end.

Definition exit_proc_module : K unit :=
  head <- kget proc_entry_list_head ;;
  exit_list_for_each_safe head ;;;
  kmodify (set_size (fun _ => 0)).

End ProcModule.

(** ** The store as a sequence of chunks *)

(** The node at [p] with the bytes its [buf] points to. *)
Definition node_of (h : gmap loc kobj) (p : loc) : option (proc_entry_list * list byte) :=
  match h !! p with
  | Some (KEntry e) =>
      match h !! buf e with
      | Some (KBytes bs) => Some (e, bs)
      | _ => None
      end
  | _ => None
  end.

(** The nodes of the list, in list order. *)
Definition store_nodes (k : kstate) : option (list (proc_entry_list * list byte)) :=
  mapM (node_of (kheap k)) (proc_entry_list_head k).

(** Sum of the [buf_size] fields. *)
Definition total_buf_size (es : list proc_entry_list) : Z :=
  foldr (fun e s => buf_size e + s) 0 es.

(** Number of bytes in a sequence of chunks. *)
Definition total (cs : list (list byte)) : Z := blen (concat cs).

(** The store invariant: the list nodes are initialised entries, each
    [buf] points to an array of [buf_size] bytes, [proc_entry_list_size] is
    the sum of the [buf_size] fields, and nodes and arrays are pairwise
    distinct objects. [ns] lists the nodes with their bytes. *)
Record store_inv (k : kstate) (ns : list (proc_entry_list * list byte)) : Prop := {
  inv_nodes : store_nodes k = Some ns;
  inv_buf_size : Forall (fun n => buf_size (fst n) = blen (snd n)) ns;
  inv_size : proc_entry_list_size k = total_buf_size (map fst ns);
  inv_nodup : NoDup (proc_entry_list_head k ++ map (fun n => buf (fst n)) ns);
}.

(** The node that is last in the list, if there is one, is an initialised
    entry: what [list_add_tail] needs of the state. *)
Definition tail_live (k : kstate) : Prop :=
  match last (proc_entry_list_head k) with
  | Some prev => exists e, kheap k !! prev = Some (KEntry e)
  | None => True
  end.

(** Every chunk holds at least one byte. *)
Definition chunks_nonempty (ns : list (proc_entry_list * list byte)) : Prop :=
  Forall (fun n => 1 <= buf_size (fst n)) ns.

(** The bytes that cross the boundary in a write of [length] bytes from a
    user range of which [usrbuf] is readable. *)
Definition wr_transfer (usrbuf : list byte) (length : Z) : list byte :=
  take (Z.to_nat (Z.min length (blen usrbuf))) usrbuf.

(** One write request. *)
Record wr_request := {
  wr_gfp : gfp_outcome;
  wr_usrbuf : list byte;
  wr_length : Z;
  wr_off : Z;
}.

(** The environment lets the write of request [q] store at least one byte:
    the three allocations succeed, a byte can be read from the user buffer,
    the length is a non-zero [size_t] and the offset is not negative. *)
Definition wr_stores (size_bits : Z) (q : wr_request) : Prop :=
  entry_ok (wr_gfp q) = true /\ tmp_ok (wr_gfp q) = true /\
  dup_ok (wr_gfp q) = true /\ wr_usrbuf q <> [] /\
  0 < wr_length q <= SIZE_MAX size_bits /\ 0 <= wr_off q.

(** A sequence of writes, with their results. *)
Fixpoint write_all (size_bits : Z) (slab_addr : gmap loc kobj -> loc)
    (reqs : list wr_request) : K (list wr_result) :=
  match reqs with
  | [] => kret []
  | q :: reqs' =>
      r <- write_proc_module size_bits slab_addr
             (wr_gfp q) (wr_usrbuf q) (wr_length q) (wr_off q) ;;
      rs <- write_all size_bits slab_addr reqs' ;;
      kret (r :: rs)
  end.

(** What the read leaves behind once it copies from the chunk that starts
    at [start] and holds [bs]: [n] bytes are asked for, [Z.min n room]
    arrive. *)
Definition rd_outcome (size_bits : Z) (room : nat) (length offset off : Z)
    (start : Z) (bs : list byte) : rd_result :=
  let n := Z.min length (start + blen bs - off) in
  let copied := Z.min n (Z.of_nat room) in
  if copied =? 0 then
    {| rd_retval := - EFAULT; rd_offset := offset; rd_data := [] |}
  else
    {| rd_retval := to_ssize size_bits copied;
       rd_offset := to_loff (offset + copied);
       rd_data := take (Z.to_nat copied) (drop (Z.to_nat (off - start)) bs) |}.

(** The addresses a write of [length] bytes from [usrbuf] obtains in state
    [k] when its allocations succeed: the node, the staging array [tmp]
    (with the bytes it holds after the transfer), and the chunk array. *)
Definition wr_new_entry (slab_addr : gmap loc kobj -> loc) (k : kstate) : loc :=
  slab_addr (kheap k).

Definition wr_tmp (slab_addr : gmap loc kobj -> loc) (k : kstate) : loc :=
  slab_addr (<[wr_new_entry slab_addr k := KRaw]> (kheap k)).

Definition wr_tmp_bytes (usrbuf : list byte) (length : Z) : list byte :=
  take (Z.to_nat (Z.min length (blen usrbuf))) usrbuf
  ++ replicate (Z.to_nat (length - Z.min length (blen usrbuf))) x00
  ++ drop (Z.to_nat length) (replicate (Z.to_nat length) x00).

Definition wr_dup (slab_addr : gmap loc kobj -> loc) (k : kstate)
    (usrbuf : list byte) (length : Z) : loc :=
  slab_addr (<[wr_tmp slab_addr k := KBytes (wr_tmp_bytes usrbuf length)]>
               (<[wr_new_entry slab_addr k := KRaw]> (kheap k))).

(** The byte sequences a list of requests transfers. *)
Definition wr_transfers (reqs : list wr_request) : list (list byte) :=
  map (fun q => wr_transfer (wr_usrbuf q) (wr_length q)) reqs.

(** ** The operations of the module *)

Inductive kop :=
| ProcRead (room : nat) (length offset : Z)
| ProcWrite (gfp : gfp_outcome) (usrbuf : list byte) (length offset : Z)
| ModuleInit (created : bool)
| ModuleExit.

Definition run_op (size_bits : Z) (slab_addr : gmap loc kobj -> loc)
    (op : kop) : K unit :=
  match op with
  | ProcRead room length offset =>
      read_proc_module size_bits room length offset ;;; kret tt
  | ProcWrite gfp usrbuf length offset =>
      write_proc_module size_bits slab_addr gfp usrbuf length offset ;;; kret tt
  | ModuleInit created => init_proc_module created ;;; kret tt
  | ModuleExit => exit_proc_module
  end.

(** The arguments are values of their C types: [length] a [size_t],
    [offset] a [loff_t]. *)
Definition op_args_ok (size_bits : Z) (op : kop) : Prop :=
  match op with
  | ProcRead _ length offset | ProcWrite _ _ length offset =>
      (0 <= length <= SIZE_MAX size_bits)
      /\ (- LOFF_MAX - 1 <= offset <= LOFF_MAX)
  | ModuleInit _ | ModuleExit => True
  end.

(** The number of bytes the operation adds to the store when it
    succeeds. *)
Definition op_growth (op : kop) : Z :=
  match op with
  | ProcWrite _ usrbuf length _ => Z.min length (blen usrbuf)
  | _ => 0
  end.

(** ** Sequences of operations *)

(** The objects the list owns: its nodes and their arrays. *)
Definition store_objects (k : kstate)
    (ns : list (proc_entry_list * list byte)) : list loc :=
  proc_entry_list_head k ++ map (fun n => buf (fst n)) ns.

(** The heap of [k] is [h0] plus the objects of the list: what the list
    owns was free in [h0], and every other address holds what it held in
    [h0]. *)
Definition heap_frame (h0 : gmap loc kobj) (k : kstate)
    (ns : list (proc_entry_list * list byte)) : Prop :=
  forall x,
    if decide (x ∈ store_objects k ns) then h0 !! x = None
    else kheap k !! x = h0 !! x.

(** The operations behind the file: reads and writes. *)
Definition is_file_op (op : kop) : Prop :=
  match op with
  | ProcRead _ _ _ | ProcWrite _ _ _ _ => True
  | ModuleInit _ | ModuleExit => False
  end.

Fixpoint run_ops (size_bits : Z) (slab_addr : gmap loc kobj -> loc)
    (ops : list kop) : K unit :=
  match ops with
  | [] => kret tt
  | op :: ops' =>
      run_op size_bits slab_addr op ;;;
      run_ops size_bits slab_addr ops'
  end.

Definition ops_growth (ops : list kop) : Z :=
  foldr (fun op s => op_growth op + s) 0 ops.

(** A reader that follows the offset: up to [n] reads of [length] bytes,
    each at the offset the one before left, until a read returns no byte.
    Returns the bytes read and the final offset. *)
Fixpoint read_chain (size_bits : Z) (n : nat) (room : nat) (length offset : Z)
    : K (list byte * Z) :=
  match n with
  | O => kret ([], offset)
  | S n' =>
      r <- read_proc_module size_bits room length offset ;;
      if rd_retval r <=? 0 then kret ([], offset)
      else
        rest <- read_chain size_bits n' room length (rd_offset r) ;;
        kret (rd_data r ++ fst rest, snd rest)
  end.

(** ** A concrete kernel: LP64, lowest free address first *)

Definition lp64 : Z := 64.

Definition first_free (h : gmap loc kobj) : loc := fresh (dom h).

Definition gfp_all_ok : gfp_outcome :=
  {| entry_ok := true; tmp_ok := true; dup_ok := true |}.

(** The state [init_proc_module] leaves on a heap with no other objects. *)
Definition k_init : kstate :=
  {| kheap := ∅; proc_entry_list_head := []; proc_entry_list_size := 0 |}.

Definition hello : list byte := list_byte_of_string "hello".
Definition world : list byte := list_byte_of_string "world!".

(** The store after writing "hello" and then "world!". *)
Definition k_hello_world : kstate :=
  {| kheap := <[1%positive := KEntry {| buf := 3%positive; buf_size := 5 |}]>
             (<[3%positive := KBytes hello]>
             (<[4%positive := KEntry {| buf := 6%positive; buf_size := 6 |}]>
             (<[6%positive := KBytes world]> ∅)));
     proc_entry_list_head := [1%positive; 4%positive];
     proc_entry_list_size := 11 |}.

Definition ns_hello_world : list (proc_entry_list * list byte) :=
  [({| buf := 3%positive; buf_size := 5 |}, hello);
   ({| buf := 6%positive; buf_size := 6 |}, world)].

(** The two writes that build it. *)
Definition reqs_hello_world : list wr_request :=
  [{| wr_gfp := gfp_all_ok; wr_usrbuf := hello; wr_length := 5; wr_off := 0 |};
   {| wr_gfp := gfp_all_ok; wr_usrbuf := world; wr_length := 6; wr_off := 5 |}].

(** A write whose chunk allocation fails. *)
Definition gfp_dup_fails : gfp_outcome :=
  {| entry_ok := true; tmp_ok := true; dup_ok := false |}.

(** Operations on the file between load and unload: two writes that
    succeed, a read, and a write whose chunk allocation fails. *)
Definition ops_hello_world : list kop :=
  [ProcWrite gfp_all_ok hello 5 0;
   ProcRead 10 10 0;
   ProcWrite gfp_dup_fails world 6 5;
   ProcWrite gfp_all_ok world 6 5].


(** * Properties *)

Section Properties.

Variable size_bits : Z.
Variable slab_addr : gmap loc kobj -> loc.

(** The two kernel data models. *)
Hypothesis size_bits_ok : size_bits = 32 \/ size_bits = 64.

(** The allocator never hands out the address of a live object. *)
Hypothesis slab_addr_fresh : forall h, h !! slab_addr h = None.

(** ** Integer conversions on values in range *)

Ltac by_bits :=
  let Hb := fresh "Hb" in
  unfold common, SIZE_MAX, SSIZE_MAX, LOFF_MAX, to_size, to_ssize, to_loff;
  destruct size_bits_ok as [Hb | Hb]; rewrite ?Hb;
  try change (32 <? 64) with true; try change (64 <? 64) with false;
  cbv iota.

Lemma to_size_small x :
  0 <= x <= SIZE_MAX size_bits -> to_size size_bits x = x.
Proof. by_bits; intros; apply Z.mod_small; lia. Qed.

Lemma to_ssize_small x :
  - SSIZE_MAX size_bits - 1 <= x <= SSIZE_MAX size_bits ->
  to_ssize size_bits x = x.
Proof. by_bits; intros; rewrite Z.mod_small; lia. Qed.

Lemma to_loff_small x : - LOFF_MAX - 1 <= x <= LOFF_MAX -> to_loff x = x.
Proof. unfold to_loff, LOFF_MAX. intros. rewrite Z.mod_small; lia. Qed.

(** A non-negative value that fits [size_t] or [loff_t] is unchanged by the
    conversion to the common type. *)
Lemma common_small x :
  0 <= x -> x <= SIZE_MAX size_bits \/ x <= LOFF_MAX ->
  common size_bits x = x.
Proof.
  by_bits; intros H0 H; rewrite Z.mod_small; lia.
Qed.

(** On LP64 a negative [loff_t] becomes a large unsigned value. *)
Lemma common_negative_lp64 x :
  size_bits = 64 -> - LOFF_MAX - 1 <= x < 0 ->
  common size_bits x = x + 2 ^ 64.
Proof.
  intros -> H. unfold common, LOFF_MAX in *. simpl.
  symmetry. apply Z.mod_unique with (q := -1); lia.
Qed.

(** On ILP32 the common type is [long long]. *)
Lemma common_ilp32 x :
  size_bits = 32 -> - LOFF_MAX - 1 <= x <= LOFF_MAX ->
  common size_bits x = x.
Proof.
  intros -> H. unfold common. simpl. by apply to_loff_small.
Qed.

(** ** Lists of bytes *)

Lemma blen_nonneg bs : 0 <= blen bs.
Proof. unfold blen. lia. Qed.

Lemma blen_app bs1 bs2 : blen (bs1 ++ bs2) = blen bs1 + blen bs2.
Proof. unfold blen. rewrite length_app. lia. Qed.

Lemma blen_take n bs : 0 <= n <= blen bs -> blen (take (Z.to_nat n) bs) = n.
Proof. unfold blen. intros. rewrite length_take. lia. Qed.

Lemma blen_replicate n : 0 <= n -> blen (replicate (Z.to_nat n) x00) = n.
Proof. unfold blen. intros. rewrite length_replicate. lia. Qed.

Lemma total_app cs1 cs2 : total (cs1 ++ cs2) = total cs1 + total cs2.
Proof. unfold total. rewrite concat_app. apply blen_app. Qed.

Lemma total_cons c cs : total (c :: cs) = blen c + total cs.
Proof. unfold total. simpl. apply blen_app. Qed.

Lemma total_buf_size_app es1 es2 :
  total_buf_size (es1 ++ es2) = total_buf_size es1 + total_buf_size es2.
Proof. induction es1 as [| e es1 IH]; simpl; lia. Qed.

(** With [buf_size] the length of each array, the sum of the [buf_size]
    fields is the number of stored bytes. *)
Lemma total_buf_size_total (ns : list (proc_entry_list * list byte)) :
  Forall (fun n => buf_size (fst n) = blen (snd n)) ns ->
  total_buf_size (map fst ns) = total (map snd ns).
Proof.
  induction 1 as [| [e bs] ns Hn _ IH]; [reflexivity |].
  simpl in *. rewrite total_cons. lia.
Qed.

Lemma total_buf_size_nonneg (ns : list (proc_entry_list * list byte)) :
  Forall (fun n => buf_size (fst n) = blen (snd n)) ns ->
  0 <= total_buf_size (map fst ns).
Proof.
  intros H. rewrite total_buf_size_total by done. apply blen_nonneg.
Qed.

(** A slice that lies inside one chunk is the same slice of the
    concatenation of all chunks. *)
Lemma slice_in_chunk (pre post : list (list byte)) (c : list byte) (off n : Z) :
  total pre <= off -> 0 <= n -> off - total pre + n <= blen c ->
  take (Z.to_nat n) (drop (Z.to_nat off) (concat (pre ++ c :: post)))
  = take (Z.to_nat n) (drop (Z.to_nat (off - total pre)) c).
Proof.
  unfold total, blen. intros Hpre Hn Hc.
  rewrite concat_app. simpl.
  rewrite drop_app_ge by lia.
  rewrite drop_app_le by lia.
  rewrite take_app_le by (rewrite length_drop; lia).
  f_equal. f_equal. lia.
Qed.

(** ** Kernel primitives *)

Lemma load_bytes_in_range k p bs idx n :
  kheap k !! p = Some (KBytes bs) ->
  0 <= idx -> 0 <= n -> idx + n <= blen bs ->
  load_bytes p idx n k
  = Some (take (Z.to_nat n) (drop (Z.to_nat idx) bs), k).
Proof.
  intros Hp Hidx Hn Hle. unfold load_bytes. rewrite Hp.
  destruct (0 <=? idx) eqn:E1; [| lia].
  destruct (0 <=? n) eqn:E2; [| lia].
  destruct (idx + n <=? blen bs) eqn:E3; [| lia].
  reflexivity.
Qed.

Lemma copy_to_user_in_range k room p bs idx n :
  kheap k !! p = Some (KBytes bs) ->
  0 <= idx -> 0 <= n -> idx + n <= blen bs ->
  copy_to_user room p idx n k
  = Some ((n - Z.min n (Z.of_nat room),
           take (Z.to_nat (Z.min n (Z.of_nat room))) (drop (Z.to_nat idx) bs)), k).
Proof.
  intros Hp Hidx Hn Hle. unfold copy_to_user, kbind, kret.
  rewrite (load_bytes_in_range k p bs) by done.
  rewrite take_take.
  replace (Z.to_nat (Z.min n (Z.of_nat room)) `min` Z.to_nat n)%nat
    with (Z.to_nat (Z.min n (Z.of_nat room))) by lia.
  reflexivity.
Qed.

Lemma load_entry_node k p e bs :
  node_of (kheap k) p = Some (e, bs) ->
  load_entry p k = Some (e, k) /\ kheap k !! buf e = Some (KBytes bs).
Proof.
  unfold node_of, load_entry. intros H.
  destruct (kheap k !! p) as [[| |e']|] eqn:Hp; try done.
  destruct (kheap k !! buf e') as [[| bs' |]|] eqn:Hb; try done.
  by simplify_eq.
Qed.

(** ** The read path *)

(** The copy count and the index computed for the entry that covers
    [off]. *)
Lemma rd_read_size_covering pos bsz off length :
  0 <= pos -> pos <= off < pos + bsz -> pos + bsz <= SIZE_MAX size_bits ->
  0 < length <= SIZE_MAX size_bits ->
  rd_read_size size_bits (pos + bsz) off length
  = Z.min length (pos + bsz - off).
Proof.
  intros Hpos Hoff Hmax Hlen. unfold rd_read_size.
  rewrite (common_small (pos + bsz)), (common_small off),
    (common_small length), (common_small (pos + bsz - off)) by lia.
  rewrite Z.gtb_ltb.
  destruct (length <? pos + bsz - off) eqn:E; rewrite to_size_small; lia.
Qed.

Lemma rd_index_covering pos off :
  0 <= pos -> pos <= off -> off <= SIZE_MAX size_bits ->
  rd_index size_bits off pos = off - pos.
Proof. intros. apply to_size_small. lia. Qed.

(** The bytes a read stores are the first [Z.min n room] of the slice. *)
Lemma rd_outcome_data room length offset off start bs :
  rd_data (rd_outcome size_bits room length offset off start bs)
  = take (Z.to_nat (Z.min (Z.min length (start + blen bs - off)) (Z.of_nat room)))
      (drop (Z.to_nat (off - start)) bs).
Proof.
  unfold rd_outcome.
  destruct (Z.min (Z.min length (start + blen bs - off)) (Z.of_nat room) =? 0)
    eqn:E; [| reflexivity].
  apply Z.eqb_eq in E. by rewrite E.
Qed.

Lemma rd_copy_covering k room length offset off e bs pos :
  kheap k !! buf e = Some (KBytes bs) ->
  buf_size e = blen bs ->
  0 <= pos -> pos <= off < pos + buf_size e ->
  pos + buf_size e <= SIZE_MAX size_bits ->
  0 < length <= SIZE_MAX size_bits ->
  rd_copy size_bits room length offset off e pos (pos + buf_size e) k
  = Some (rd_outcome size_bits room length offset off pos bs, k).
Proof.
  intros Hbuf Hsz Hpos Hoff Hmax Hlen. unfold rd_copy, kbind.
  rewrite rd_read_size_covering by lia.
  rewrite rd_index_covering by lia.
  rewrite (copy_to_user_in_range k room (buf e) bs) by (done || lia).
  unfold rd_outcome, kret. simpl. rewrite <- Hsz.
  set (n := Z.min length (pos + buf_size e - off)).
  set (copied := Z.min n (Z.of_nat room)).
  assert (0 <= copied <= n) by lia.
  destruct (copied =? 0) eqn:E0.
  - apply Z.eqb_eq in E0. rewrite E0, Z.sub_0_r, Z.eqb_refl. reflexivity.
  - apply Z.eqb_neq in E0.
    destruct (n - copied =? n) eqn:E1; [apply Z.eqb_eq in E1; lia |].
    replace (n - (n - copied)) with copied by lia.
    rewrite to_size_small by lia. reflexivity.
Qed.

(** The loop stops at the entry whose range covers [off], and leaves by
    [goto rd_end]. *)
Lemma rd_list_for_each_entry_covering k room length offset off :
  0 < length <= SIZE_MAX size_bits ->
  forall l ns pos,
    Forall2 (fun p n => node_of (kheap k) p = Some n) l ns ->
    Forall (fun n => buf_size (fst n) = blen (snd n)) ns ->
    0 <= pos ->
    pos + total_buf_size (map fst ns) <= SIZE_MAX size_bits ->
    pos <= off < pos + total_buf_size (map fst ns) ->
    exists pre e bs post,
      ns = pre ++ (e, bs) :: post /\
      pos + total_buf_size (map fst pre) <= off
        < pos + total_buf_size (map fst pre) + buf_size e /\
      rd_list_for_each_entry size_bits room length offset off l pos k
      = Some (Some (rd_outcome size_bits room length offset off
                      (pos + total_buf_size (map fst pre)) bs), k).
Proof.
  intros Hlen l ns pos Hnodes. revert pos.
  induction Hnodes as [| p [e bs] l ns Hp Hnodes IH]; intros pos Hsz Hpos Hmax Hoff.
  - simpl in Hoff. lia.
  - apply Forall_cons in Hsz as [Hsz Hszs]. simpl in Hsz, Hmax, Hoff.
    pose proof (total_buf_size_nonneg ns Hszs) as Hnn.
    pose proof (blen_nonneg bs) as Hbs.
    destruct (load_entry_node k p e bs Hp) as [Hload Hbuf].
    simpl. unfold kbind at 1. rewrite Hload.
    rewrite (to_size_small (pos + buf_size e)) by lia.
    rewrite (common_small pos), (common_small off),
      (common_small (pos + buf_size e)) by lia.
    destruct (off <? pos + buf_size e) eqn:E.
    + apply Z.ltb_lt in E.
      replace (pos <=? off) with true by (symmetry; apply Z.leb_le; lia).
      simpl. exists [], e, bs, ns. simpl.
      split; [reflexivity |]. split; [lia |].
      unfold kbind. rewrite Z.add_0_r.
      rewrite (rd_copy_covering k room length offset off e bs pos) by (done || lia).
      reflexivity.
    + apply Z.ltb_ge in E. rewrite andb_false_r.
      destruct (IH (pos + buf_size e)) as (pre & e' & bs' & post & -> & Hcov & Hrun);
        [done | lia | lia | lia |].
      exists ((e, bs) :: pre), e', bs', post. simpl.
      rewrite Z.add_assoc.
      split; [reflexivity |]. split; [lia |]. exact Hrun.
Qed.

(** ** The write path *)

Lemma kfree_live k p o :
  kheap k !! p = Some o -> kfree p k = Some (tt, set_kheap (delete p) k).
Proof. intros H. unfold kfree. by rewrite H. Qed.

(** Freeing what was just allocated at a free address restores the
    heap. *)
Lemma delete_insert_fresh (h : gmap loc kobj) p o :
  h !! p = None -> delete p (<[p:=o]> h) = h.
Proof. intros H. by rewrite delete_insert_eq, delete_id. Qed.

(** The bytes [kmemdup] finds in [tmp] after the transfer. *)
Lemma tmp_prefix (usrbuf rest : list byte) (length : Z) :
  0 <= length ->
  let copied := Z.min length (blen usrbuf) in
  take (Z.to_nat copied)
    (drop (Z.to_nat 0)
       (take (Z.to_nat copied) usrbuf
        ++ replicate (Z.to_nat (length - copied)) x00 ++ rest))
  = wr_transfer usrbuf length.
Proof.
  intros Hlen copied. unfold wr_transfer. fold copied.
  change (Z.to_nat 0) with 0%nat. rewrite drop_0.
  pose proof (blen_nonneg usrbuf).
  rewrite take_app_le by (rewrite length_take; unfold blen in *; lia).
  rewrite take_take. f_equal. lia.
Qed.

Lemma kbind_some {A B} (m : K A) (f : A -> K B) k a k' :
  m k = Some (a, k') -> kbind m f k = f a k'.
Proof. intros H. unfold kbind. by rewrite H. Qed.

Lemma kalloc_ok o k :
  kalloc slab_addr true o k
  = Some (Some (slab_addr (kheap k)),
          set_kheap (insert (slab_addr (kheap k)) o) k).
Proof. reflexivity. Qed.

Lemma copy_from_user_in_range k to bs from n :
  kheap k !! to = Some (KBytes bs) -> 0 <= n <= blen bs ->
  copy_from_user to from n k
  = Some (n - Z.min n (blen from),
          set_kheap
            (insert to
               (KBytes (take (Z.to_nat (Z.min n (blen from))) from
                        ++ replicate (Z.to_nat (n - Z.min n (blen from))) x00
                        ++ drop (Z.to_nat n) bs))) k).
Proof.
  intros Hto Hn. unfold copy_from_user. rewrite Hto.
  destruct (0 <=? n) eqn:E1; [| lia].
  destruct (n <=? blen bs) eqn:E2; [| lia].
  reflexivity.
Qed.

Lemma store_entry_live k p o e :
  kheap k !! p = Some o ->
  store_entry p e k = Some (tt, set_kheap (insert p (KEntry e)) k).
Proof. intros H. unfold store_entry. by rewrite H. Qed.

Lemma list_add_tail_live k new :
  (exists e, kheap k !! new = Some (KEntry e)) -> tail_live k ->
  list_add_tail new k = Some (tt, set_head (fun l => l ++ [new]) k).
Proof.
  intros [e He] Htail. unfold list_add_tail, tail_live in *.
  rewrite (kbind_some _ _ _ _ _ eq_refl).
  erewrite kbind_some; cycle 1.
  { unfold load_entry. by rewrite He. }
  destruct (last (proc_entry_list_head k)) as [prev |]; [| reflexivity].
  destruct Htail as [ep Hp].
  erewrite kbind_some; cycle 1.
  { unfold load_entry. by rewrite Hp. }
  reflexivity.
Qed.

(** The state a write leaves once all three allocations succeed and at
    least one byte crosses the boundary: a new node [e] with its array [b],
    linked last. *)
Lemma write_proc_module_links k gfp usrbuf length offset :
  tail_live k ->
  entry_ok gfp = true -> tmp_ok gfp = true -> dup_ok gfp = true ->
  usrbuf <> [] -> 0 < length <= SIZE_MAX size_bits -> 0 <= offset ->
  let e := wr_new_entry slab_addr k in
  let b := wr_dup slab_addr k usrbuf length in
  let n := Z.min length (blen usrbuf) in
  kheap k !! e = None /\ kheap k !! b = None /\ e <> b /\
  write_proc_module size_bits slab_addr gfp usrbuf length offset k
  = Some ({| wr_retval := to_ssize size_bits n;
             wr_offset := to_loff (offset + n) |},
          {| kheap := <[e := KEntry {| buf := b; buf_size := n |}]>
                        (<[b := KBytes (wr_transfer usrbuf length)]> (kheap k));
             proc_entry_list_head := proc_entry_list_head k ++ [e];
             proc_entry_list_size :=
               to_size size_bits (proc_entry_list_size k + n) |}).
Proof.
  intros Htail He Ht Hd Husr Hlen Hoff.
  pose proof (blen_nonneg usrbuf) as Husr0.
  assert (Hcp : 0 < Z.min length (blen usrbuf) <= length).
  { unfold blen in *. destruct usrbuf; [done |]. simpl Datatypes.length. lia. }
  cbv zeta. unfold wr_dup, wr_tmp, wr_new_entry, wr_tmp_bytes.
  unfold write_proc_module.
  destruct (length =? 0) eqn:E0; [apply Z.eqb_eq in E0; lia |].
  destruct (offset <? 0) eqn:E1; [apply Z.ltb_lt in E1; lia |].
  rewrite He, Ht, Hd. unfold kmalloc, kzalloc.
  (* new_entry = kmalloc(...) *)
  rewrite (kbind_some _ _ _ _ _ (kalloc_ok _ _)).
  pose proof (slab_addr_fresh (kheap k)) as Hfe.
  remember (slab_addr (kheap k)) as e eqn:Ee. clear Ee.
  (* tmp = kzalloc(length) *)
  rewrite (kbind_some _ _ _ _ _ (kalloc_ok _ _)). simpl kheap.
  pose proof (slab_addr_fresh (<[e:=KRaw]> (kheap k))) as Hft.
  remember (slab_addr (<[e:=KRaw]> (kheap k))) as t eqn:Et. clear Et.
  assert (Hte : t <> e).
  { intros ->. by rewrite lookup_insert_eq in Hft. }
  rewrite lookup_insert_ne in Hft by done.
  remember (replicate (Z.to_nat length) x00) as zeros eqn:Ez.
  assert (Hz : blen zeros = length) by (subst zeros; apply blen_replicate; lia).
  (* copy_from_user(tmp, usrbuf, length) *)
  erewrite kbind_some; cycle 1.
  { apply (copy_from_user_in_range _ t zeros); [simpl; apply lookup_insert_eq | lia]. }
  remember (Z.min length (blen usrbuf)) as copied eqn:Ec.
  destruct (length - copied =? length) eqn:E2; [apply Z.eqb_eq in E2; lia |].
  replace (length - (length - copied)) with copied by lia.
  rewrite (to_size_small copied) by lia.
  remember (take (Z.to_nat copied) usrbuf
            ++ replicate (Z.to_nat (length - copied)) x00
            ++ drop (Z.to_nat length) zeros) as tmp' eqn:Etmp.
  assert (Htmp : blen tmp' = length).
  { subst tmp'. rewrite !blen_app, blen_take, blen_replicate by lia.
    unfold blen in *. rewrite length_drop. lia. }
  (* new_entry->buf = kmemdup(tmp, actual_size) *)
  unfold kmemdup.
  erewrite kbind_some; cycle 1.
  { erewrite kbind_some; cycle 1.
    { apply (load_bytes_in_range _ t tmp'); [simpl; apply lookup_insert_eq | lia ..]. }
    apply kalloc_ok. }
  assert (Hdata : take (Z.to_nat copied) (drop (Z.to_nat 0) tmp')
                  = wr_transfer usrbuf length).
  { subst tmp' copied. apply tmp_prefix. lia. }
  rewrite Hdata. clear Hdata. simpl kheap.
  rewrite insert_insert_eq.
  pose proof (slab_addr_fresh (<[t:=KBytes tmp']> (<[e:=KRaw]> (kheap k)))) as Hfb.
  remember (slab_addr (<[t:=KBytes tmp']> (<[e:=KRaw]> (kheap k)))) as b eqn:Eb.
  clear Eb.
  assert (Hbt : b <> t).
  { intros ->. by rewrite lookup_insert_eq in Hfb. }
  rewrite lookup_insert_ne in Hfb by done.
  assert (Hbe : b <> e).
  { intros ->. by rewrite lookup_insert_eq in Hfb. }
  rewrite lookup_insert_ne in Hfb by done.
  split; [done |]. split; [done |]. split; [done |].
  (* new_entry is initialised, tmp is freed, the node is linked *)
  erewrite kbind_some; cycle 1.
  { apply (store_entry_live _ e KRaw). simpl. by simplify_map_eq. }
  erewrite kbind_some; cycle 1.
  { apply (kfree_live _ t (KBytes tmp')). simpl. by simplify_map_eq. }
  erewrite kbind_some; cycle 1.
  { apply list_add_tail_live.
    - eexists. simpl. by simplify_map_eq.
    - unfold tail_live in *. simpl.
      destruct (last (proc_entry_list_head k)) as [prev |]; [| done].
      destruct Htail as [ep Hp]. exists ep.
      assert (prev <> t /\ prev <> e /\ prev <> b) as (? & ? & ?)
        by (repeat split; intros ->; congruence).
      by simplify_map_eq. }
  unfold kbind, kmodify, kret, set_size, set_head, set_kheap.
  simpl. do 3 f_equal.
  apply map_eq. intros i.
  destruct (decide (i = t)) as [-> | Hit].
  - rewrite lookup_delete_eq, !lookup_insert_ne by done. by rewrite Hft.
  - rewrite lookup_delete_ne by done.
    destruct (decide (i = e)) as [-> | Hie]; [by rewrite !lookup_insert_eq |].
    rewrite !(lookup_insert_ne _ e) by done.
    destruct (decide (i = b)) as [-> | Hib]; [by rewrite !lookup_insert_eq |].
    rewrite !(lookup_insert_ne _ b) by done.
    by rewrite !lookup_insert_ne by done.
Qed.

Lemma kalloc_fail o k : kalloc slab_addr false o k = Some (None, k).
Proof. reflexivity. Qed.

(** [tmp_err] run right after [new_entry] was allocated at a free
    address. *)
Lemma tmp_err_restores k e o errval offset :
  kheap k !! e = None ->
  tmp_err e errval offset (set_kheap (insert e o) k)
  = Some ({| wr_retval := errval; wr_offset := offset |}, k).
Proof.
  intros He. unfold tmp_err.
  erewrite kbind_some; cycle 1.
  { apply (kfree_live _ e o). simpl. apply lookup_insert_eq. }
  unfold kret, set_kheap. simpl.
  rewrite delete_insert_fresh by done. by destruct k.
Qed.

(** [cpy_err] run with [tmp] and [new_entry] as the only objects added. *)
Lemma cpy_err_restores k e t oe ot errval offset :
  kheap k !! e = None -> kheap k !! t = None -> t <> e ->
  cpy_err t e errval offset
    (set_kheap (fun _ => <[t := ot]> (<[e := oe]> (kheap k))) k)
  = Some ({| wr_retval := errval; wr_offset := offset |}, k).
Proof.
  intros He Ht Hte. unfold cpy_err.
  erewrite kbind_some; cycle 1.
  { apply (kfree_live _ t ot). simpl. apply lookup_insert_eq. }
  unfold set_kheap at 1 2. simpl.
  rewrite delete_insert_fresh by by rewrite lookup_insert_ne.
  apply (tmp_err_restores k e oe errval offset He).
Qed.

(** A write that fails after its argument checks: the result and the
    state it leaves. *)
Lemma write_proc_module_fails k gfp usrbuf length offset :
  0 < length -> 0 <= offset ->
  entry_ok gfp = false \/ tmp_ok gfp = false \/ dup_ok gfp = false
    \/ usrbuf = [] ->
  write_proc_module size_bits slab_addr gfp usrbuf length offset k
  = Some ({| wr_retval :=
               - (if entry_ok gfp && tmp_ok gfp && bool_decide (usrbuf = [])
                  then EFAULT else ENOMEM);
             wr_offset := offset |}, k).
Proof.
  intros Hlen Hoff Hfail.
  unfold write_proc_module.
  destruct (length =? 0) eqn:E0; [apply Z.eqb_eq in E0; lia |].
  destruct (offset <? 0) eqn:E1; [apply Z.ltb_lt in E1; lia |].
  unfold kmalloc, kzalloc.
  destruct (entry_ok gfp) eqn:He; cycle 1.
  { rewrite (kbind_some _ _ _ _ _ (kalloc_fail _ _)). reflexivity. }
  rewrite (kbind_some _ _ _ _ _ (kalloc_ok _ _)).
  pose proof (slab_addr_fresh (kheap k)) as Hfe.
  remember (slab_addr (kheap k)) as e eqn:Ee. clear Ee.
  destruct (tmp_ok gfp) eqn:Ht; cycle 1.
  { rewrite (kbind_some _ _ _ _ _ (kalloc_fail _ _)). simpl.
    by apply tmp_err_restores. }
  rewrite (kbind_some _ _ _ _ _ (kalloc_ok _ _)). simpl kheap.
  pose proof (slab_addr_fresh (<[e:=KRaw]> (kheap k))) as Hft.
  remember (slab_addr (<[e:=KRaw]> (kheap k))) as t eqn:Et. clear Et.
  assert (Hte : t <> e).
  { intros ->. by rewrite lookup_insert_eq in Hft. }
  rewrite lookup_insert_ne in Hft by done.
  remember (replicate (Z.to_nat length) x00) as zeros eqn:Ez.
  assert (Hz : blen zeros = length) by (subst zeros; apply blen_replicate; lia).
  erewrite kbind_some; cycle 1.
  { apply (copy_from_user_in_range _ t zeros); [simpl; apply lookup_insert_eq | lia]. }
  pose proof (blen_nonneg usrbuf) as Husr0.
  simpl andb.
  remember (take (Z.to_nat (Z.min length (blen usrbuf))) usrbuf
            ++ replicate (Z.to_nat (length - Z.min length (blen usrbuf))) x00
            ++ drop (Z.to_nat length) zeros) as tmp' eqn:Etmp. clear Etmp.
  assert (Hst : set_kheap (insert t (KBytes tmp'))
                  (set_kheap (insert t (KBytes zeros))
                     (set_kheap (insert e KRaw) k))
                = set_kheap (fun _ => <[t := KBytes tmp']> (<[e := KRaw]> (kheap k))) k).
  { unfold set_kheap. simpl. by rewrite insert_insert_eq. }
  rewrite Hst. clear Hst.
  destruct (bool_decide (usrbuf = [])) eqn:Hu.
  - apply bool_decide_eq_true in Hu. subst usrbuf.
    change (blen []) with 0. replace (Z.min length 0) with 0 by lia.
    rewrite Z.sub_0_r, Z.eqb_refl.
    by apply cpy_err_restores.
  - apply bool_decide_eq_false in Hu.
    assert (0 < Z.min length (blen usrbuf)).
    { unfold blen in *. destruct usrbuf; [done |]. simpl Datatypes.length. lia. }
    destruct (length - Z.min length (blen usrbuf) =? length) eqn:E2;
      [apply Z.eqb_eq in E2; lia |].
    destruct (dup_ok gfp) eqn:Hd;
      [destruct Hfail as [? | [? | [? | ?]]]; congruence |].
    unfold kmemdup. rewrite (kbind_some _ _ _ _ _ eq_refl).
    by apply cpy_err_restores.
Qed.

(** ** The store invariant *)

Lemma store_nodes_Forall2 k ns :
  store_nodes k = Some ns <->
  Forall2 (fun p n => node_of (kheap k) p = Some n) (proc_entry_list_head k) ns.
Proof. unfold store_nodes. apply mapM_Some. Qed.

Lemma node_of_live h p e bs :
  node_of h p = Some (e, bs) ->
  h !! p = Some (KEntry e) /\ h !! buf e = Some (KBytes bs).
Proof.
  unfold node_of. intros H.
  destruct (h !! p) as [[| |e']|] eqn:Hp; try done.
  destruct (h !! buf e') as [[| bs' |]|] eqn:Hb; try done.
  by simplify_eq.
Qed.

(** Nodes and arrays of the list are live objects. *)
Lemma nodes_live h l ns x :
  Forall2 (fun p n => node_of h p = Some n) l ns ->
  x ∈ l ++ map (fun n => buf (fst n)) ns -> is_Some (h !! x).
Proof.
  intros Hnodes Hx. apply elem_of_app in Hx as [Hx | Hx].
  - apply list_elem_of_lookup in Hx as [i Hi].
    destruct (Forall2_lookup_l _ _ _ _ _ Hnodes Hi) as ([e bs] & _ & Hn).
    apply node_of_live in Hn as [Hn _]. by rewrite Hn.
  - apply list_elem_of_fmap in Hx as ([e bs] & -> & Hx).
    apply list_elem_of_lookup in Hx as [i Hi].
    destruct (Forall2_lookup_r _ _ _ _ _ Hnodes Hi) as (p & _ & Hn).
    apply node_of_live in Hn as [_ Hn]. simpl. by rewrite Hn.
Qed.

Lemma store_inv_tail_live k ns : store_inv k ns -> tail_live k.
Proof.
  intros Hinv. unfold tail_live.
  destruct (last (proc_entry_list_head k)) as [prev |] eqn:Hlast; [| done].
  pose proof (inv_nodes _ _ Hinv) as Hnodes.
  apply store_nodes_Forall2 in Hnodes.
  apply last_Some_elem_of, list_elem_of_lookup in Hlast as [i Hi].
  destruct (Forall2_lookup_l _ _ _ _ _ Hnodes Hi) as ([e bs] & _ & Hn).
  apply node_of_live in Hn as [Hn _]. eauto.
Qed.

(** Objects added at free addresses leave the nodes of the list as they
    were. *)
Lemma node_of_insert_fresh h p n x o :
  node_of h p = Some n -> h !! x = None ->
  node_of (<[x := o]> h) p = Some n.
Proof.
  destruct n as [e bs]. intros Hn Hx.
  apply node_of_live in Hn as [Hp Hb].
  unfold node_of.
  rewrite lookup_insert_ne by (intros ->; congruence). rewrite Hp.
  rewrite lookup_insert_ne by (intros ->; congruence). by rewrite Hb.
Qed.

Lemma blen_wr_transfer usrbuf length :
  0 <= length -> blen (wr_transfer usrbuf length) = Z.min length (blen usrbuf).
Proof.
  intros. unfold wr_transfer. pose proof (blen_nonneg usrbuf).
  apply blen_take. lia.
Qed.

(** Linking a new node with its array keeps the invariant, as long as the
    new byte count fits [size_t]. *)
Lemma store_inv_link k ns e b bs :
  store_inv k ns ->
  kheap k !! e = None -> kheap k !! b = None -> e <> b ->
  proc_entry_list_size k + blen bs <= SIZE_MAX size_bits ->
  store_inv
    {| kheap := <[e := KEntry {| buf := b; buf_size := blen bs |}]>
                  (<[b := KBytes bs]> (kheap k));
       proc_entry_list_head := proc_entry_list_head k ++ [e];
       proc_entry_list_size :=
         to_size size_bits (proc_entry_list_size k + blen bs) |}
    (ns ++ [({| buf := b; buf_size := blen bs |}, bs)]).
Proof.
  intros [Hnodes Hsz Hsize Hnd] He Hb Heb Hfit.
  apply store_nodes_Forall2 in Hnodes.
  pose proof (total_buf_size_nonneg ns Hsz) as Hnn.
  pose proof (blen_nonneg bs) as Hbs.
  split; simpl.
  - apply store_nodes_Forall2. simpl. apply Forall2_app.
    + eapply Forall2_impl; [exact Hnodes |]. intros p n Hn. simpl in Hn.
      apply node_of_insert_fresh; [| by rewrite lookup_insert_ne].
      by apply node_of_insert_fresh.
    + constructor; [| constructor]. unfold node_of.
      rewrite lookup_insert_eq. simpl.
      by rewrite lookup_insert_ne, lookup_insert_eq.
  - apply Forall_app. split; [done |]. by constructor.
  - rewrite map_app, total_buf_size_app. simpl.
    rewrite to_size_small by lia. lia.
  - rewrite map_app. simpl.
    assert (Hlive : forall x, x ∈ proc_entry_list_head k
                                  ++ map (fun n => buf (fst n)) ns ->
                              is_Some (kheap k !! x))
      by (intros x; by apply nodes_live).
    assert (He' : e ∉ proc_entry_list_head k ++ map (fun n => buf (fst n)) ns).
    { intros Hin. apply Hlive in Hin as [o Ho]. congruence. }
    assert (Hb' : b ∉ proc_entry_list_head k ++ map (fun n => buf (fst n)) ns).
    { intros Hin. apply Hlive in Hin as [o Ho]. congruence. }
    rewrite elem_of_app in He', Hb'.
    apply NoDup_app in Hnd as (Hnd1 & Hdisj & Hnd2).
    apply NoDup_app. split; [| split].
    + apply NoDup_app. split; [done |]. split; [| apply NoDup_singleton].
      intros x Hx ->%list_elem_of_singleton. tauto.
    + intros x [Hx | ->%list_elem_of_singleton]%elem_of_app
        [Hx' | ->%list_elem_of_singleton]%elem_of_app.
      * by eapply Hdisj.
      * tauto.
      * tauto.
      * done.
    + apply NoDup_app. split; [done |]. split; [| apply NoDup_singleton].
      intros x Hx ->%list_elem_of_singleton. tauto.
Qed.

(** ** Teardown *)

Lemma node_of_delete h p n x :
  node_of h p = Some n -> x <> p -> x <> buf (fst n) ->
  node_of (delete x h) p = Some n.
Proof.
  destruct n as [e bs]. intros Hn Hp Hb.
  apply node_of_live in Hn as [Hlp Hlb]. simpl in Hb.
  unfold node_of.
  rewrite lookup_delete_ne by done. rewrite Hlp.
  rewrite lookup_delete_ne by done. by rewrite Hlb.
Qed.

Lemma nodes_delete h l ns x :
  Forall2 (fun p n => node_of h p = Some n) l ns ->
  x ∉ l ++ map (fun n => buf (fst n)) ns ->
  Forall2 (fun p n => node_of (delete x h) p = Some n) l ns.
Proof.
  induction 1 as [| p n l ns Hn Hnodes IH]; intros Hx; [constructor |].
  simpl in Hx. rewrite not_elem_of_cons, elem_of_app, elem_of_cons in Hx.
  constructor.
  - apply node_of_delete; [done | tauto ..].
  - apply IH. rewrite elem_of_app. tauto.
Qed.

(** The loop frees every node of [l] with its array, unlinks it, and
    touches nothing else. *)
Lemma exit_list_for_each_safe_frees l : forall ns k,
  Forall2 (fun p n => node_of (kheap k) p = Some n) l ns ->
  NoDup (l ++ map (fun n => buf (fst n)) ns) ->
  exists k',
    exit_list_for_each_safe l k = Some (tt, k') /\
    (forall q, q ∈ proc_entry_list_head k' <->
               q ∈ proc_entry_list_head k /\ q ∉ l) /\
    proc_entry_list_size k' = proc_entry_list_size k /\
    (forall x, kheap k' !! x
               = if decide (x ∈ l ++ map (fun n => buf (fst n)) ns)
                 then None else kheap k !! x).
Proof.
  induction l as [| p l IH]; intros ns k Hnodes Hnd.
  - apply Forall2_nil_inv_l in Hnodes as ->. exists k. simpl.
    split; [done |]. split; [| split; [done |]].
    + intros q. rewrite elem_of_nil. tauto.
    + intros x. destruct (decide (x ∈ [])) as [Hx | _]; [| done].
      by apply elem_of_nil in Hx.
  - apply Forall2_cons_inv_l in Hnodes as ([e bs] & ns' & Hn & Hnodes & ->).
    simpl in Hnd. apply NoDup_cons in Hnd as [Hp Hnd].
    assert (Hbuf : (buf e ∉ l ++ map (fun n => buf (fst n)) ns') /\ buf e <> p).
    { rewrite elem_of_app, elem_of_cons in Hp.
      apply NoDup_app in Hnd as (_ & Hdisj & Hnd).
      simpl in Hnd. apply NoDup_cons in Hnd as [Hb _].
      rewrite elem_of_app. split; [| intros Heq; apply Hp; right; by left].
      intros [Hin | Hin]; [| done].
      apply (Hdisj _ Hin). simpl. apply elem_of_cons. by left. }
    destruct Hbuf as [Hbuf Hbp].
    assert (Hp' : p ∉ l ++ map (fun n => buf (fst n)) ns').
    { rewrite elem_of_app in *. simpl in Hp. rewrite elem_of_cons in Hp.
      tauto. }
    assert (Hnd' : NoDup (l ++ map (fun n => buf (fst n)) ns')).
    { apply NoDup_app in Hnd as (Hnd1 & Hdisj & Hnd2).
      simpl in Hnd2. apply NoDup_cons in Hnd2 as [_ Hnd2].
      apply NoDup_app. split; [done |]. split; [| done].
      intros x Hx Hx'. apply (Hdisj x Hx). simpl. apply elem_of_cons. by right. }
    destruct (node_of_live _ _ _ _ Hn) as [Hlp Hlb].
    set (k1 := set_kheap (delete p)
                 (set_kheap (delete (buf e))
                    (set_head (filter (fun q => q <> p)) k))).
    destruct (IH ns' k1) as (k' & Hrun & Hhead & Hsize & Hheap); [| done |].
    { simpl. apply nodes_delete; [| done]. by apply nodes_delete. }
    exists k'. split; [| split; [| split; [done |]]].
    + simpl. erewrite kbind_some; cycle 1.
      { unfold load_entry. by rewrite Hlp. }
      unfold list_del. rewrite (kbind_some _ _ _ _ _ eq_refl).
      erewrite kbind_some; cycle 1.
      { by apply (kfree_live _ (buf e) (KBytes bs)). }
      erewrite kbind_some; cycle 1.
      { apply (kfree_live _ p (KEntry e)). simpl.
        by rewrite lookup_delete_ne. }
      exact Hrun.
    + intros q. rewrite Hhead. simpl.
      rewrite list_elem_of_filter, not_elem_of_cons. tauto.
    + intros x. rewrite Hheap. simpl.
      destruct (decide (x ∈ l ++ map (fun n => buf (fst n)) ns')) as [Hx | Hx].
      * rewrite decide_True; [done |].
        rewrite elem_of_cons, elem_of_app, elem_of_cons.
        rewrite elem_of_app in Hx. tauto.
      * rewrite elem_of_app in Hx.
        destruct (decide (x = p)) as [-> | Hxp].
        { rewrite lookup_delete_eq, decide_True; [done |].
          apply elem_of_cons. by left. }
        rewrite lookup_delete_ne by done.
        destruct (decide (x = buf e)) as [-> | Hxb].
        { rewrite lookup_delete_eq, decide_True; [done |].
          rewrite elem_of_cons, elem_of_app, elem_of_cons. tauto. }
        rewrite lookup_delete_ne by done.
        rewrite decide_False; [done |].
        rewrite elem_of_cons, elem_of_app, elem_of_cons. tauto.
Qed.

(** After teardown the list is empty, the counter is zero, every node and
    array of the list is freed and no other object is touched. *)
Lemma exit_proc_module_clears k ns :
  store_inv k ns ->
  exists k',
    exit_proc_module k = Some (tt, k') /\
    proc_entry_list_head k' = [] /\
    proc_entry_list_size k' = 0 /\
    (forall x, kheap k' !! x
               = if decide (x ∈ proc_entry_list_head k
                                 ++ map (fun n => buf (fst n)) ns)
                 then None else kheap k !! x).
Proof.
  intros [Hnodes _ _ Hnd]. apply store_nodes_Forall2 in Hnodes.
  destruct (exit_list_for_each_safe_frees _ _ _ Hnodes Hnd)
    as (k' & Hrun & Hhead & _ & Hheap).
  exists (set_size (fun _ => 0) k').
  split; [| split; [| split; [done |]]].
  - unfold exit_proc_module. rewrite (kbind_some _ _ _ _ _ eq_refl).
    rewrite (kbind_some _ _ _ _ _ Hrun). reflexivity.
  - simpl. apply elem_of_nil_inv. intros q Hq.
    apply Hhead in Hq. tauto.
  - exact Hheap.
Qed.

Lemma store_inv_empty k :
  proc_entry_list_head k = [] -> proc_entry_list_size k = 0 ->
  store_inv k [].
Proof.
  intros Hh Hs. split.
  - unfold store_nodes. by rewrite Hh.
  - constructor.
  - by rewrite Hs.
  - rewrite Hh. simpl. constructor.
Qed.

(** ** The read operation on a store that satisfies the invariant *)

(** A read at an offset inside the store: the loop stops at the covering
    entry, and the call returns what the copy from that entry leaves. *)
Lemma read_proc_module_covering k ns room length offset :
  store_inv k ns ->
  proc_entry_list_size k <= SIZE_MAX size_bits ->
  0 <= offset < proc_entry_list_size k ->
  0 < length <= SIZE_MAX size_bits ->
  exists pre e bs post,
    ns = pre ++ (e, bs) :: post /\
    total_buf_size (map fst pre) <= offset
      < total_buf_size (map fst pre) + buf_size e /\
    rd_list_for_each_entry size_bits room length offset offset
      (proc_entry_list_head k) 0 k
    = Some (Some (rd_outcome size_bits room length offset offset
                    (total_buf_size (map fst pre)) bs), k) /\
    read_proc_module size_bits room length offset k
    = Some (rd_outcome size_bits room length offset offset
              (total_buf_size (map fst pre)) bs, k).
Proof.
  intros [Hnodes Hsz Hsize Hnd] Hmax Hoff Hlen.
  apply store_nodes_Forall2 in Hnodes.
  destruct (rd_list_for_each_entry_covering k room length offset offset Hlen
              (proc_entry_list_head k) ns 0 Hnodes Hsz)
    as (pre & e & bs & post & Hns & Hcov & Hrun); [lia | lia | lia |].
  rewrite Z.add_0_l in Hcov, Hrun.
  exists pre, e, bs, post. split; [done |]. split; [done |]. split; [done |].
  unfold read_proc_module.
  rewrite (kbind_some _ _ _ _ _ eq_refl).
  destruct (length =? 0) eqn:E0; [apply Z.eqb_eq in E0; lia |].
  rewrite (common_small offset), (common_small (proc_entry_list_size k)) by lia.
  rewrite Z.geb_leb.
  destruct (proc_entry_list_size k <=? offset) eqn:E1; [apply Z.leb_le in E1; lia |].
  destruct (offset <? 0) eqn:E2; [apply Z.ltb_lt in E2; lia |].
  cbn [orb].
  rewrite (kbind_some _ _ _ _ _ eq_refl).
  rewrite (kbind_some _ _ _ _ _ Hrun). reflexivity.
Qed.

(** The entries before a split point and the chunks they hold. *)
Lemma store_split (ns pre post : list (proc_entry_list * list byte)) e bs :
  Forall (fun n => buf_size (fst n) = blen (snd n)) ns ->
  ns = pre ++ (e, bs) :: post ->
  map snd ns = map snd pre ++ bs :: map snd post /\
  total_buf_size (map fst pre) = total (map snd pre) /\
  buf_size e = blen bs.
Proof.
  intros Hsz ->. rewrite map_app. simpl.
  apply Forall_app in Hsz as [Hpre Hrest].
  apply Forall_cons in Hrest as [He _].
  split; [done |]. split; [| done]. by apply total_buf_size_total.
Qed.

Lemma read_proc_module_past_end k room length offset :
  0 <= proc_entry_list_size k <= SIZE_MAX size_bits ->
  length = 0 \/
    (0 <= offset <= LOFF_MAX /\ proc_entry_list_size k <= offset) ->
  read_proc_module size_bits room length offset k
  = Some ({| rd_retval := 0; rd_offset := offset; rd_data := [] |}, k).
Proof.
  intros Hsize Hcase. unfold read_proc_module.
  rewrite (kbind_some _ _ _ _ _ eq_refl).
  destruct Hcase as [-> | [Hoff Hpast]]; [reflexivity |].
  rewrite (common_small offset), (common_small (proc_entry_list_size k)) by lia.
  rewrite Z.geb_leb.
  replace (proc_entry_list_size k <=? offset) with true
    by (symmetry; apply Z.leb_le; lia).
  by rewrite orb_true_r.
Qed.


(** ** Every outcome of a write *)

Lemma write_proc_module_zero_length k gfp usrbuf offset :
  write_proc_module size_bits slab_addr gfp usrbuf 0 offset k
  = Some ({| wr_retval := 0; wr_offset := offset |}, k).
Proof. reflexivity. Qed.

Lemma write_proc_module_negative_offset k gfp usrbuf length offset :
  length <> 0 -> offset < 0 ->
  write_proc_module size_bits slab_addr gfp usrbuf length offset k
  = Some ({| wr_retval := - EINVAL; wr_offset := offset |}, k).
Proof.
  intros Hlen Hoff. unfold write_proc_module.
  destruct (length =? 0) eqn:E0; [apply Z.eqb_eq in E0; lia |].
  destruct (offset <? 0) eqn:E1; [done | apply Z.ltb_ge in E1; lia].
Qed.

(** A write either leaves the kernel state as it was, returning 0 for a
    zero length and a negative error number otherwise, or links one node
    that holds the transferred bytes, at least one. *)
Lemma write_proc_module_store k ns gfp usrbuf length offset :
  store_inv k ns ->
  0 <= length <= SIZE_MAX size_bits ->
  proc_entry_list_size k + Z.min length (blen usrbuf) <= SIZE_MAX size_bits ->
  exists r k',
    write_proc_module size_bits slab_addr gfp usrbuf length offset k
    = Some (r, k') /\
    ((k' = k /\ (wr_retval r = 0 /\ length = 0 \/ wr_retval r < 0))
     \/
     (exists e,
        store_inv k' (ns ++ [(e, wr_transfer usrbuf length)]) /\
        buf_size e = Z.min length (blen usrbuf) /\
        1 <= buf_size e /\
        wr_retval r = to_ssize size_bits (buf_size e) /\
        proc_entry_list_size k'
        = proc_entry_list_size k + buf_size e)).
Proof.
  intros Hinv Hlen Hfit.
  pose proof (store_inv_tail_live k ns Hinv) as Htail.
  destruct (decide (length = 0)) as [-> | Hl0].
  { eexists _, k. split; [apply write_proc_module_zero_length |].
    left. simpl. tauto. }
  destruct (decide (offset < 0)) as [Hneg | Hoff].
  { eexists _, k.
    split; [by apply write_proc_module_negative_offset |].
    left. simpl. unfold EINVAL. split; [done |]. right. lia. }
  destruct (decide (entry_ok gfp = true /\ tmp_ok gfp = true
                    /\ dup_ok gfp = true /\ usrbuf <> []))
    as [(He & Ht & Hd & Hu) | Hfail].
  - destruct (write_proc_module_links k gfp usrbuf length offset Htail He Ht Hd Hu)
      as (Hfe & Hfb & Heb & Hrun); [lia | lia |].
    eexists _, _. split; [exact Hrun |]. right.
    pose proof (blen_wr_transfer usrbuf length) as Hbl.
    rewrite <- Hbl in * by lia.
    assert (1 <= blen (wr_transfer usrbuf length)).
    { rewrite Hbl by lia. unfold blen. destruct usrbuf; [done |].
      simpl Datatypes.length. lia. }
    pose proof (inv_size _ _ Hinv) as Hsz.
    pose proof (total_buf_size_nonneg ns (inv_buf_size _ _ Hinv)) as Hnn.
    eexists. split; [by apply store_inv_link |]. simpl.
    split; [done |]. split; [done |]. split; [done |].
    apply to_size_small. lia.
  - eexists _, k. split.
    + apply write_proc_module_fails; [lia | lia |].
      destruct (entry_ok gfp), (tmp_ok gfp), (dup_ok gfp), usrbuf;
        try tauto. exfalso. apply Hfail. done.
    + left. split; [done |]. right. simpl.
      destruct (entry_ok gfp && tmp_ok gfp && bool_decide (usrbuf = []));
        unfold EFAULT, ENOMEM; lia.
Qed.

Lemma init_proc_module_store k created :
  exists r k',
    init_proc_module created k = Some (r, k') /\
    (created = true /\ proc_entry_list_head k' = []
       /\ proc_entry_list_size k' = 0 /\ r = 0
     \/ created = false /\ k' = k /\ r = - ENOMEM).
Proof.
  destruct created; eexists _, _; (split; [reflexivity |]); simpl; tauto.
Qed.

(** A read with arguments of their C types returns, and leaves the kernel
    state as it was. *)
Lemma read_proc_module_returns k ns room length offset :
  store_inv k ns ->
  proc_entry_list_size k <= SIZE_MAX size_bits ->
  0 <= length <= SIZE_MAX size_bits ->
  - LOFF_MAX - 1 <= offset <= LOFF_MAX ->
  exists r, read_proc_module size_bits room length offset k = Some (r, k).
Proof.
  intros Hinv Hmax Hlen Hoff.
  pose proof (total_buf_size_nonneg ns (inv_buf_size _ _ Hinv)) as Hnn.
  rewrite <- (inv_size _ _ Hinv) in Hnn.
  destruct (decide (length = 0)) as [Hl0 | Hl0].
  { eexists. apply read_proc_module_past_end; [lia | by left]. }
  destruct (common size_bits offset >=? common size_bits (proc_entry_list_size k))
    eqn:Epast.
  { eexists. unfold read_proc_module. rewrite (kbind_some _ _ _ _ _ eq_refl).
    rewrite Epast, orb_true_r. reflexivity. }
  destruct (offset <? 0) eqn:Eneg.
  { eexists. unfold read_proc_module. rewrite (kbind_some _ _ _ _ _ eq_refl).
    rewrite Epast, Eneg.
    destruct (length =? 0) eqn:E0; [apply Z.eqb_eq in E0; lia |]. reflexivity. }
  apply Z.ltb_ge in Eneg.
  rewrite (common_small offset), (common_small (proc_entry_list_size k)),
    Z.geb_leb in Epast by lia.
  apply Z.leb_gt in Epast.
  destruct (read_proc_module_covering k ns room length offset Hinv)
    as (pre & e & bs & post & _ & _ & _ & Hread); [lia ..|].
  eauto.
Qed.

(** Every operation of the module, run on a store that satisfies the
    invariant with arguments of their C types, returns and leaves a store
    that satisfies the invariant, in which every chunk has at least one byte
    if that was so before. *)
Lemma run_op_store k ns op :
  store_inv k ns ->
  op_args_ok size_bits op ->
  proc_entry_list_size k + op_growth op <= SIZE_MAX size_bits ->
  exists k' ns',
    run_op size_bits slab_addr op k = Some (tt, k') /\
    store_inv k' ns' /\
    (chunks_nonempty ns -> chunks_nonempty ns').
Proof.
  intros Hinv Hargs Hfit.
  pose proof (total_buf_size_nonneg ns (inv_buf_size _ _ Hinv)) as Hnn.
  rewrite <- (inv_size _ _ Hinv) in Hnn.
  destruct op as [room length offset | gfp usrbuf length offset | created |];
    simpl in *.
  - destruct Hargs as [Hlen Hoff].
    destruct (read_proc_module_returns k ns room length offset Hinv)
      as [r Hr]; [lia | done | done |].
    exists k, ns. split; [| done].
    by rewrite (kbind_some _ _ _ _ _ Hr).
  - destruct Hargs as [Hlen Hoff].
    destruct (write_proc_module_store k ns gfp usrbuf length offset Hinv Hlen Hfit)
      as (r & k' & Hr & [[-> _] | (e & Hinv' & _ & He & _)]).
    + exists k, ns. split; [| done].
      by rewrite (kbind_some _ _ _ _ _ Hr).
    + exists k', (ns ++ [(e, wr_transfer usrbuf length)]).
      split; [| split; [done |]].
      * by rewrite (kbind_some _ _ _ _ _ Hr).
      * intros Hne. apply Forall_app. split; [done |]. by constructor.
  - destruct (init_proc_module_store k created)
      as (r & k' & Hr & [(_ & Hh & Hs & _) | (_ & -> & _)]).
    + exists k', []. split; [| split].
      * by rewrite (kbind_some _ _ _ _ _ Hr).
      * by apply store_inv_empty.
      * intros _. constructor.
    + exists k, ns. split; [| done].
      by rewrite (kbind_some _ _ _ _ _ Hr).
  - destruct (exit_proc_module_clears k ns Hinv) as (k' & Hr & Hh & Hs & _).
    exists k', []. split; [done |]. split.
    + by apply store_inv_empty.
    + intros _. constructor.
Qed.

(** Linking a node at a free address appends it to the sequence of
    nodes. *)
Lemma store_nodes_link k ns e b bs n size :
  store_nodes k = Some ns ->
  kheap k !! e = None -> kheap k !! b = None -> e <> b ->
  store_nodes
    {| kheap := <[e := KEntry {| buf := b; buf_size := n |}]>
                  (<[b := KBytes bs]> (kheap k));
       proc_entry_list_head := proc_entry_list_head k ++ [e];
       proc_entry_list_size := size |}
  = Some (ns ++ [({| buf := b; buf_size := n |}, bs)]).
Proof.
  intros Hnodes He Hb Heb.
  apply store_nodes_Forall2 in Hnodes.
  apply store_nodes_Forall2. simpl. apply Forall2_app.
  - eapply Forall2_impl; [exact Hnodes |]. intros p m Hm. simpl in Hm.
    apply node_of_insert_fresh; [| by rewrite lookup_insert_ne].
    by apply node_of_insert_fresh.
  - constructor; [| constructor]. unfold node_of.
    rewrite lookup_insert_eq. simpl.
    by rewrite lookup_insert_ne, lookup_insert_eq.
Qed.

(** ** Sequences of writes *)

(** Writes that the environment lets store a byte each link their
    transferred bytes one after the other. *)
Lemma write_all_stores reqs : forall k ns,
  store_inv k ns ->
  Forall (wr_stores size_bits) reqs ->
  proc_entry_list_size k + total (wr_transfers reqs) <= SIZE_MAX size_bits ->
  exists rs k' ns',
    write_all size_bits slab_addr reqs k = Some (rs, k') /\
    map wr_retval rs
    = map (fun c => to_ssize size_bits (blen c)) (wr_transfers reqs) /\
    store_inv k' (ns ++ ns') /\
    map snd ns' = wr_transfers reqs /\
    proc_entry_list_size k'
    = proc_entry_list_size k + total (wr_transfers reqs).
Proof.
  induction reqs as [| q reqs IH]; intros k ns Hinv Hargs Hfit.
  - exists [], k, []. split; [reflexivity |]. split; [reflexivity |].
    rewrite app_nil_r. split; [done |]. split; [done |].
    unfold wr_transfers, total, blen. simpl. lia.
  - apply Forall_cons in Hargs as [(He & Ht & Hd & Hu & Hlen & Hoff) Hargs].
    unfold wr_transfers in Hfit |- *. simpl in Hfit |- *.
    fold (wr_transfers reqs) in Hfit |- *.
    rewrite total_cons in Hfit |- *.
    assert (Htot : 0 <= total (wr_transfers reqs)) by apply blen_nonneg.
    pose proof (blen_wr_transfer (wr_usrbuf q) (wr_length q) ltac:(lia)) as Hbl.
    pose proof (blen_nonneg (wr_transfer (wr_usrbuf q) (wr_length q))) as Hbl0.
    pose proof (total_buf_size_nonneg ns (inv_buf_size _ _ Hinv)) as Hnn.
    rewrite <- (inv_size _ _ Hinv) in Hnn.
    destruct (write_proc_module_links k (wr_gfp q) (wr_usrbuf q) (wr_length q)
                (wr_off q) (store_inv_tail_live k ns Hinv) He Ht Hd Hu Hlen Hoff)
      as (Hfe & Hfb & Heb & Hrun).
    rewrite <- Hbl in Hrun.
    assert (Hinv1 := store_inv_link k ns _ _
                       (wr_transfer (wr_usrbuf q) (wr_length q))
                       Hinv Hfe Hfb Heb ltac:(lia)).
    destruct (IH _ _ Hinv1 Hargs) as (rs & k' & ns' & Hrs & Hret & Hinv' & Hcs & Hsz).
    { simpl. rewrite to_size_small by lia. lia. }
    rewrite <- app_assoc in Hinv'. simpl in Hsz.
    rewrite to_size_small in Hsz by lia.
    eexists (_ :: rs), k', (_ :: ns'). split.
    { simpl. rewrite (kbind_some _ _ _ _ _ Hrun), (kbind_some _ _ _ _ _ Hrs).
      reflexivity. }
    simpl. split; [by rewrite Hret |]. split; [exact Hinv' |].
    split; [by rewrite Hcs |]. lia.
Qed.

(** ** Reads at a negative offset *)

(** On LP64 the comparison [off >= proc_entry_list_size] is unsigned: a
    negative offset passes it and the read returns 0 before the test
    [off < 0] is reached. *)
Lemma read_negative_offset_lp64 k room length offset :
  size_bits = 64 ->
  0 <= proc_entry_list_size k <= LOFF_MAX + 1 ->
  - LOFF_MAX - 1 <= offset < 0 ->
  read_proc_module size_bits room length offset k
  = Some ({| rd_retval := 0; rd_offset := offset; rd_data := [] |}, k).
Proof.
  intros H64 Hsize Hoff. unfold read_proc_module.
  rewrite (kbind_some _ _ _ _ _ eq_refl).
  rewrite (common_negative_lp64 offset) by done.
  assert (proc_entry_list_size k <= SIZE_MAX size_bits)
    by (rewrite H64; unfold SIZE_MAX, LOFF_MAX in *; lia).
  rewrite (common_small (proc_entry_list_size k)) by lia.
  rewrite Z.geb_leb.
  replace (proc_entry_list_size k <=? offset + 2 ^ 64) with true
    by (symmetry; apply Z.leb_le; unfold LOFF_MAX in *; lia).
  by rewrite orb_true_r.
Qed.

(** On ILP32 the comparison is made in [long long], and the test
    [off < 0] is reached. *)
Lemma read_negative_offset_ilp32 k room length offset :
  size_bits = 32 ->
  0 <= proc_entry_list_size k <= SIZE_MAX size_bits ->
  length <> 0 ->
  - LOFF_MAX - 1 <= offset < 0 ->
  read_proc_module size_bits room length offset k
  = Some ({| rd_retval := - EINVAL; rd_offset := offset; rd_data := [] |}, k).
Proof.
  intros H32 Hsize Hlen Hoff. unfold read_proc_module.
  rewrite (kbind_some _ _ _ _ _ eq_refl).
  rewrite (common_ilp32 offset) by (done || lia).
  rewrite (common_small (proc_entry_list_size k)) by lia.
  rewrite Z.geb_leb.
  destruct (length =? 0) eqn:E0; [apply Z.eqb_eq in E0; lia |].
  destruct (proc_entry_list_size k <=? offset) eqn:E1; [apply Z.leb_le in E1; lia |].
  destruct (offset <? 0) eqn:E2; [done | apply Z.ltb_ge in E2; lia].
Qed.
(** ** Claims about the read operation *)

(** C1. On a store that satisfies the invariant, a read of [length > 0]
    bytes at [0 <= offset < proc_entry_list_size] finds the chunk [c] that
    contains [offset]; with [n] the smaller of [length] and the distance
    from [offset] to the end of [c], the bytes stored into the user buffer
    are a slice of [c] alone, and once the user buffer takes all [n] bytes
    they are exactly the [n] bytes of the concatenation of all chunks that
    start at [offset]. *)
Theorem read_returns_chunk_bounded_slice k ns room length offset :
  store_inv k ns ->
  proc_entry_list_size k <= SIZE_MAX size_bits ->
  0 <= offset < proc_entry_list_size k ->
  0 < length <= SIZE_MAX size_bits ->
  exists pre c post r,
    map snd ns = pre ++ c :: post /\
    total pre <= offset < total pre + blen c /\
    read_proc_module size_bits room length offset k = Some (r, k) /\
    let n := Z.min length (total pre + blen c - offset) in
    rd_data r
    = take (Z.to_nat (Z.min n (Z.of_nat room)))
        (drop (Z.to_nat (offset - total pre)) c) /\
    (n <= Z.of_nat room ->
     blen (rd_data r) = n /\
     rd_data r
     = take (Z.to_nat n) (drop (Z.to_nat offset) (concat (map snd ns)))).
Proof.
  intros Hinv Hmax Hoff Hlen.
  destruct (read_proc_module_covering k ns room length offset Hinv Hmax Hoff Hlen)
    as (pre & e & bs & post & Hns & Hcov & _ & Hread).
  destruct (store_split ns pre post e bs (inv_buf_size _ _ Hinv) Hns)
    as (Hcs & Hpre & He).
  rewrite Hpre, He in Hcov. rewrite Hpre in Hread.
  exists (map snd pre), bs, (map snd post),
    (rd_outcome size_bits room length offset offset (total (map snd pre)) bs).
  split; [done |]. split; [done |]. split; [done |].
  cbv zeta. rewrite rd_outcome_data.
  set (n := Z.min length (total (map snd pre) + blen bs - offset)).
  set (copied := Z.min n (Z.of_nat room)).
  assert (Hn : 0 < n <= blen bs - (offset - total (map snd pre))) by lia.
  split; [done |].
  intros Hroom. replace copied with n by lia. split.
  - unfold blen. rewrite length_take, length_drop. unfold blen in Hn. lia.
  - rewrite Hcs. symmetry. apply slice_in_chunk; lia.
Qed.

(** C6. On a read that reaches the copy (the copy count [to_copy] is never
    zero there): a user buffer that takes [room] bytes with
    [0 < room < to_copy] makes the read return [room] and advance the
    offset by [room], for a count that fits [ssize_t] and an advanced
    offset that fits [loff_t]; a user buffer that takes no byte makes it
    return [-EFAULT] with the offset unchanged. *)
Theorem read_short_transfer k ns room length offset :
  store_inv k ns ->
  proc_entry_list_size k <= SIZE_MAX size_bits ->
  0 <= offset < proc_entry_list_size k ->
  0 < length <= SIZE_MAX size_bits ->
  Z.of_nat room <= SSIZE_MAX size_bits ->
  offset + Z.of_nat room <= LOFF_MAX ->
  exists pre c post,
    map snd ns = pre ++ c :: post /\
    total pre <= offset < total pre + blen c /\
    let to_copy := Z.min length (total pre + blen c - offset) in
    0 < to_copy /\
    (0 < Z.of_nat room < to_copy ->
     read_proc_module size_bits room length offset k
     = Some ({| rd_retval := Z.of_nat room;
                rd_offset := offset + Z.of_nat room;
                rd_data := take room (drop (Z.to_nat (offset - total pre)) c) |},
             k)) /\
    (room = 0%nat ->
     read_proc_module size_bits room length offset k
     = Some ({| rd_retval := - EFAULT; rd_offset := offset; rd_data := [] |}, k)).
Proof.
  intros Hinv Hmax Hoff Hlen Hret Hend.
  destruct (read_proc_module_covering k ns room length offset Hinv Hmax Hoff Hlen)
    as (pre & e & bs & post & Hns & Hcov & _ & Hread).
  destruct (store_split ns pre post e bs (inv_buf_size _ _ Hinv) Hns)
    as (Hcs & Hpre & He).
  rewrite Hpre, He in Hcov. rewrite Hpre in Hread.
  exists (map snd pre), bs, (map snd post).
  split; [done |]. split; [done |]. cbv zeta.
  split; [lia |].
  rewrite Hread. unfold rd_outcome. split.
  - intros Hroom.
    replace (Z.min (Z.min length (total (map snd pre) + blen bs - offset))
               (Z.of_nat room)) with (Z.of_nat room) by lia.
    destruct (Z.of_nat room =? 0) eqn:E; [apply Z.eqb_eq in E; lia |].
    rewrite to_ssize_small, to_loff_small by (unfold LOFF_MAX in *; lia).
    by rewrite Nat2Z.id.
  - intros ->. change (Z.of_nat 0) with 0.
    replace (Z.min (Z.min length (total (map snd pre) + blen bs - offset)) 0)
      with 0 by lia.
    reflexivity.
Qed.

(** C10. On a store that satisfies the invariant, a read with
    [0 <= offset < proc_entry_list_size] and [length > 0] leaves the loop at
    an entry whose range covers [offset] (it does not run off the end of
    the list), with the result of the copy from that entry: [min(length,
    next_pos - offset)] bytes asked for from index [offset - pos] of its
    array; and the index and copy count it passes to [copy_to_user] stay
    inside that array. *)
Theorem read_scan_in_bounds k ns room length offset :
  store_inv k ns ->
  proc_entry_list_size k <= SIZE_MAX size_bits ->
  0 <= offset < proc_entry_list_size k ->
  0 < length <= SIZE_MAX size_bits ->
  exists pre e bs post r,
    ns = pre ++ (e, bs) :: post /\
    let pos := total_buf_size (map fst pre) in
    let next_pos := pos + buf_size e in
    rd_list_for_each_entry size_bits room length offset offset
      (proc_entry_list_head k) 0 k = Some (Some r, k) /\
    rd_copy size_bits room length offset offset e pos next_pos k
    = Some (r, k) /\
    r = rd_outcome size_bits room length offset offset pos bs /\
    pos <= offset < next_pos /\
    kheap k !! buf e = Some (KBytes bs) /\
    buf_size e = blen bs /\
    rd_index size_bits offset pos = offset - pos /\
    rd_read_size size_bits next_pos offset length
    = Z.min length (next_pos - offset) /\
    0 <= rd_index size_bits offset pos /\
    0 < rd_read_size size_bits next_pos offset length /\
    rd_index size_bits offset pos
      + rd_read_size size_bits next_pos offset length <= buf_size e /\
    is_Some (load_bytes (buf e) (rd_index size_bits offset pos)
               (rd_read_size size_bits next_pos offset length) k).
Proof.
  intros Hinv Hmax Hoff Hlen.
  destruct (read_proc_module_covering k ns room length offset Hinv Hmax Hoff Hlen)
    as (pre & e & bs & post & Hns & Hcov & Hrun & _).
  destruct (store_split ns pre post e bs (inv_buf_size _ _ Hinv) Hns)
    as (Hcs & Hpre & He).
  pose proof (inv_buf_size _ _ Hinv) as Hsz.
  assert (Hpre0 : 0 <= total_buf_size (map fst pre)).
  { rewrite Hpre. apply blen_nonneg. }
  assert (Hend : total_buf_size (map fst pre) + buf_size e
                 <= proc_entry_list_size k).
  { rewrite (inv_size _ _ Hinv), Hns, map_app, total_buf_size_app. simpl.
    assert (0 <= total_buf_size (map fst post)); [| lia].
    apply total_buf_size_nonneg.
    rewrite Hns in Hsz. apply Forall_app in Hsz as [_ Hsz].
    by apply Forall_cons in Hsz as [_ Hsz]. }
  assert (Hbuf : kheap k !! buf e = Some (KBytes bs)).
  { pose proof (inv_nodes _ _ Hinv) as Hnodes.
    apply store_nodes_Forall2 in Hnodes. rewrite Hns in Hnodes.
    apply Forall2_app_inv_r in Hnodes as (l1 & l2 & _ & Hl2 & _).
    apply Forall2_cons_inv_r in Hl2 as (p & l2' & Hp & _ & _).
    by apply node_of_live in Hp as [_ Hp]. }
  exists pre, e, bs, post. eexists. split; [done |]. cbv zeta.
  split; [exact Hrun |].
  split; [apply rd_copy_covering; (done || lia) |].
  split; [reflexivity |].
  split; [done |]. split; [done |]. split; [done |].
  rewrite rd_index_covering, rd_read_size_covering by lia.
  split; [reflexivity |]. split; [reflexivity |].
  split; [lia |]. split; [lia |]. split; [lia |].
  rewrite (load_bytes_in_range k (buf e) bs) by (done || lia). eauto.
Qed.

(** C7. A read of zero bytes, and a read at a non-negative offset at or
    past [proc_entry_list_size], returns 0, stores nothing, and leaves the
    kernel state and the offset as they were. *)
Theorem read_empty_result k room length offset :
  0 <= proc_entry_list_size k <= SIZE_MAX size_bits ->
  length = 0 \/
    (0 <= offset <= LOFF_MAX /\ proc_entry_list_size k <= offset) ->
  read_proc_module size_bits room length offset k
  = Some ({| rd_retval := 0; rd_offset := offset; rd_data := [] |}, k).
Proof. apply read_proc_module_past_end. Qed.

(** ** Claims about the write operation and the store *)

(** C3. Starting from the empty store, a sequence of writes each of which
    the environment lets succeed (its allocations succeed, a byte can be
    read from the user buffer, the offset is not negative) leaves
    [proc_entry_list_size] equal to the number of bytes transferred, and
    the chunks of the list are the transferred byte sequences in the order
    of the writes; and every operation of the module keeps
    [proc_entry_list_size] equal to the sum of the [buf_size] fields. The
    byte counts are those that fit [size_t]. *)
Theorem appends_sum_and_size_invariant :
  (forall k0 reqs,
     proc_entry_list_head k0 = [] -> proc_entry_list_size k0 = 0 ->
     Forall (wr_stores size_bits) reqs ->
     total (wr_transfers reqs) <= SIZE_MAX size_bits ->
     exists rs k ns,
       write_all size_bits slab_addr reqs k0 = Some (rs, k) /\
       map wr_retval rs
       = map (fun c => to_ssize size_bits (blen c)) (wr_transfers reqs) /\
       store_inv k ns /\
       map snd ns = wr_transfers reqs /\
       proc_entry_list_size k = total (wr_transfers reqs) /\
       proc_entry_list_size k = total_buf_size (map fst ns))
  /\
  (forall k ns op,
     store_inv k ns ->
     op_args_ok size_bits op ->
     proc_entry_list_size k + op_growth op <= SIZE_MAX size_bits ->
     exists k' ns',
       run_op size_bits slab_addr op k = Some (tt, k') /\
       store_inv k' ns' /\
       proc_entry_list_size k' = total_buf_size (map fst ns')).
Proof.
  split.
  - intros k0 reqs Hh Hs Hargs Hfit.
    destruct (write_all_stores reqs k0 [] (store_inv_empty k0 Hh Hs) Hargs)
      as (rs & k & ns & Hrun & Hret & Hinv & Hcs & Hsz); [lia |].
    simpl in Hinv.
    exists rs, k, ns. split; [done |]. split; [done |]. split; [done |].
    split; [done |]. split; [lia |].
    apply (inv_size _ _ Hinv).
  - intros k ns op Hinv Hargs Hfit.
    destruct (run_op_store k ns op Hinv Hargs Hfit) as (k' & ns' & Hrun & Hinv' & _).
    exists k', ns'. split; [done |]. split; [done |]. apply (inv_size _ _ Hinv').
Qed.

(** C4. On a store that satisfies the invariant, for a write of
    [length > 0] bytes the kernel state and the return value are the same
    for all non-negative offsets; and once the allocations succeed and at
    least one byte is transferred, the state has one more node, last in the
    list, that holds the transferred bytes, the nodes before it being
    those of the prior state. *)
Theorem write_appends_for_every_offset k ns gfp usrbuf length off1 off2 :
  store_inv k ns ->
  0 < length <= SIZE_MAX size_bits -> 0 <= off1 -> 0 <= off2 ->
  exists r1 r2 k',
    write_proc_module size_bits slab_addr gfp usrbuf length off1 k = Some (r1, k') /\
    write_proc_module size_bits slab_addr gfp usrbuf length off2 k = Some (r2, k') /\
    wr_retval r1 = wr_retval r2 /\
    (entry_ok gfp = true -> tmp_ok gfp = true -> dup_ok gfp = true ->
     usrbuf <> [] ->
     exists p e,
       proc_entry_list_head k' = proc_entry_list_head k ++ [p] /\
       kheap k' !! p = Some (KEntry e) /\
       buf_size e = Z.min length (blen usrbuf) /\
       store_nodes k' = Some (ns ++ [(e, wr_transfer usrbuf length)])).
Proof.
  intros Hinv Hlen Hoff1 Hoff2.
  pose proof (store_inv_tail_live k ns Hinv) as Htail.
  destruct (decide (entry_ok gfp = true /\ tmp_ok gfp = true
                    /\ dup_ok gfp = true /\ usrbuf <> []))
    as [(He & Ht & Hd & Hu) | Hfail].
  - destruct (write_proc_module_links k gfp usrbuf length off1 Htail He Ht Hd Hu Hlen Hoff1)
      as (Hfe & Hfb & Heb & Hrun1).
    destruct (write_proc_module_links k gfp usrbuf length off2 Htail He Ht Hd Hu Hlen Hoff2)
      as (_ & _ & _ & Hrun2).
    eexists _, _, _. split; [exact Hrun1 |]. split; [exact Hrun2 |].
    split; [reflexivity |]. intros _ _ _ _.
    eexists _, _. split; [reflexivity |].
    split; [apply lookup_insert_eq |]. split; [reflexivity |].
    apply store_nodes_link; [apply (inv_nodes _ _ Hinv) | done ..].
  - assert (Hcause : entry_ok gfp = false \/ tmp_ok gfp = false
                     \/ dup_ok gfp = false \/ usrbuf = []).
    { destruct (entry_ok gfp), (tmp_ok gfp), (dup_ok gfp), usrbuf;
        try tauto. exfalso. apply Hfail. done. }
    eexists _, _, k.
    split; [apply write_proc_module_fails; (lia || done) |].
    split; [apply write_proc_module_fails; (lia || done) |].
    split; [reflexivity |]. intros He Ht Hd Hu. exfalso. by apply Hfail.
Qed.

(** C5. A write that passes its argument checks and then fails, because
    one of its three allocations fails ([-ENOMEM]) or because no byte can
    be read from the user buffer ([-EFAULT]), returns with the kernel state
    it started from: the heap holds the same objects, no node is linked,
    [proc_entry_list_size] and the caller's offset are unchanged. *)
Theorem write_failure_restores_state k gfp usrbuf length offset :
  0 < length -> 0 <= offset ->
  entry_ok gfp = false \/ tmp_ok gfp = false \/ dup_ok gfp = false
    \/ usrbuf = [] ->
  exists errval,
    write_proc_module size_bits slab_addr gfp usrbuf length offset k
    = Some ({| wr_retval := - errval; wr_offset := offset |}, k) /\
    (errval = EFAULT /\ entry_ok gfp = true /\ tmp_ok gfp = true /\ usrbuf = []
     \/
     errval = ENOMEM /\
     (entry_ok gfp = false \/ tmp_ok gfp = false
      \/ (usrbuf <> [] /\ dup_ok gfp = false))).
Proof.
  intros Hlen Hoff Hcause.
  eexists. split; [by apply write_proc_module_fails |].
  destruct (entry_ok gfp), (tmp_ok gfp), (dup_ok gfp), usrbuf; simpl;
    intuition congruence.
Qed.

(** C8. A write that links a node gives it a [buf_size] of at least one,
    the number of bytes transferred; and every operation of the module,
    run on a store whose chunks all have [buf_size >= 1], leaves such a
    store. *)
Theorem chunks_hold_at_least_one_byte :
  (forall k ns gfp usrbuf length offset,
     store_inv k ns ->
     0 <= length <= SIZE_MAX size_bits ->
     proc_entry_list_size k + Z.min length (blen usrbuf) <= SIZE_MAX size_bits ->
     exists r k',
       write_proc_module size_bits slab_addr gfp usrbuf length offset k
       = Some (r, k') /\
       (k' = k \/
        exists e,
          store_inv k' (ns ++ [(e, wr_transfer usrbuf length)]) /\
          buf_size e = blen (wr_transfer usrbuf length) /\
          1 <= buf_size e))
  /\
  (forall k ns op,
     store_inv k ns -> chunks_nonempty ns ->
     op_args_ok size_bits op ->
     proc_entry_list_size k + op_growth op <= SIZE_MAX size_bits ->
     exists k' ns',
       run_op size_bits slab_addr op k = Some (tt, k') /\
       store_inv k' ns' /\ chunks_nonempty ns').
Proof.
  split.
  - intros k ns gfp usrbuf length offset Hinv Hlen Hfit.
    destruct (write_proc_module_store k ns gfp usrbuf length offset Hinv Hlen Hfit)
      as (r & k' & Hr & [[-> _] | (e & Hinv' & He & He1 & _)]).
    + exists r, k. split; [done |]. by left.
    + exists r, k'. split; [done |]. right. exists e.
      split; [done |]. split; [| done].
      rewrite blen_wr_transfer by lia. done.
  - intros k ns op Hinv Hne Hargs Hfit.
    destruct (run_op_store k ns op Hinv Hargs Hfit) as (k' & ns' & Hrun & Hinv' & Hne').
    exists k', ns'. auto.
Qed.

(** C9. A read or a write of zero bytes returns 0 whatever the offset is,
    negative offsets included, and changes nothing: the test of the length
    comes before the test of the sign of the offset. *)
Theorem zero_length_returns_zero room gfp usrbuf offset k :
  read_proc_module size_bits room 0 offset k
  = Some ({| rd_retval := 0; rd_offset := offset; rd_data := [] |}, k) /\
  write_proc_module size_bits slab_addr gfp usrbuf 0 offset k
  = Some ({| wr_retval := 0; wr_offset := offset |}, k).
Proof. split; reflexivity. Qed.

(** * Further properties of the module *)

(** ** Ownership of heap objects *)

Lemma store_objects_link k ns e b bs n size h x :
  x ∈ store_objects
        {| kheap := h; proc_entry_list_head := proc_entry_list_head k ++ [e];
           proc_entry_list_size := size |}
        (ns ++ [({| buf := b; buf_size := n |}, bs)])
  <-> x ∈ store_objects k ns \/ x = e \/ x = b.
Proof.
  unfold store_objects. simpl. rewrite map_app. simpl.
  rewrite !elem_of_app, !list_elem_of_singleton. tauto.
Qed.

Lemma heap_frame_link h0 k ns e b bs n size :
  store_inv k ns -> heap_frame h0 k ns ->
  kheap k !! e = None -> kheap k !! b = None ->
  heap_frame h0
    {| kheap := <[e := KEntry {| buf := b; buf_size := n |}]>
                  (<[b := KBytes bs]> (kheap k));
       proc_entry_list_head := proc_entry_list_head k ++ [e];
       proc_entry_list_size := size |}
    (ns ++ [({| buf := b; buf_size := n |}, bs)]).
Proof.
  intros Hinv Hframe He Hb x.
  pose proof (inv_nodes _ _ Hinv) as Hnodes.
  apply store_nodes_Forall2 in Hnodes.
  assert (Hlive : forall y, y ∈ store_objects k ns -> is_Some (kheap k !! y))
    by (intros y; by apply nodes_live).
  assert (He' : e ∉ store_objects k ns).
  { intros Hin. apply Hlive in Hin as [o Ho]. congruence. }
  assert (Hb' : b ∉ store_objects k ns).
  { intros Hin. apply Hlive in Hin as [o Ho]. congruence. }
  pose proof (Hframe e) as Hfe. rewrite decide_False in Hfe by done.
  pose proof (Hframe b) as Hfb. rewrite decide_False in Hfb by done.
  destruct (decide (x ∈ store_objects _ _)) as [Hx | Hx];
    rewrite store_objects_link in Hx; pose proof (Hframe x) as Hfx.
  - destruct Hx as [Hx | [-> | ->]]; [| congruence ..].
    by rewrite decide_True in Hfx.
  - simpl. rewrite !lookup_insert_ne by (intros ->; tauto).
    rewrite decide_False in Hfx by tauto. done.
Qed.

(** A write keeps the invariant and the ownership of the heap: whatever it
    returns, the heap differs from before by objects of the list only. *)
Lemma write_proc_module_frame h0 k ns gfp usrbuf length offset :
  store_inv k ns -> heap_frame h0 k ns ->
  0 <= length <= SIZE_MAX size_bits ->
  proc_entry_list_size k + Z.min length (blen usrbuf) <= SIZE_MAX size_bits ->
  exists r k' ns',
    write_proc_module size_bits slab_addr gfp usrbuf length offset k
    = Some (r, k') /\
    store_inv k' ns' /\ heap_frame h0 k' ns' /\
    proc_entry_list_size k <= proc_entry_list_size k'
      <= proc_entry_list_size k + Z.min length (blen usrbuf).
Proof.
  intros Hinv Hframe Hlen Hfit.
  pose proof (store_inv_tail_live k ns Hinv) as Htail.
  pose proof (blen_nonneg usrbuf) as Hu0.
  destruct (decide (length = 0)) as [-> | Hl0].
  { eexists _, k, ns. split; [apply write_proc_module_zero_length |].
    split; [done |]. split; [done |]. lia. }
  destruct (decide (offset < 0)) as [Hneg | Hoff].
  { eexists _, k, ns.
    split; [by apply write_proc_module_negative_offset |].
    split; [done |]. split; [done |]. lia. }
  destruct (decide (entry_ok gfp = true /\ tmp_ok gfp = true
                    /\ dup_ok gfp = true /\ usrbuf <> []))
    as [(He & Ht & Hd & Hu) | Hfail].
  - destruct (write_proc_module_links k gfp usrbuf length offset Htail He Ht Hd Hu)
      as (Hfe & Hfb & Heb & Hrun); [lia | lia |].
    pose proof (blen_wr_transfer usrbuf length) as Hbl.
    rewrite <- Hbl in * by lia.
    pose proof (inv_size _ _ Hinv) as Hsz.
    pose proof (total_buf_size_nonneg ns (inv_buf_size _ _ Hinv)) as Hnn.
    pose proof (blen_nonneg (wr_transfer usrbuf length)) as Ht0.
    eexists _, _, _. split; [exact Hrun |].
    split; [by apply store_inv_link |].
    split; [by apply heap_frame_link |].
    simpl. rewrite to_size_small by lia. lia.
  - eexists _, k, ns. split.
    + apply write_proc_module_fails; [lia | lia |].
      destruct (entry_ok gfp), (tmp_ok gfp), (dup_ok gfp), usrbuf;
        try tauto. exfalso. apply Hfail. done.
    + split; [done |]. split; [done |]. lia.
Qed.

Lemma ops_growth_cons op ops : ops_growth (op :: ops) = op_growth op + ops_growth ops.
Proof. reflexivity. Qed.

Lemma op_growth_nonneg op : op_args_ok size_bits op -> 0 <= op_growth op.
Proof.
  destruct op as [| gfp usrbuf length offset | |]; simpl; try lia.
  intros [Hlen _]. pose proof (blen_nonneg usrbuf). lia.
Qed.

Lemma ops_growth_nonneg ops :
  Forall (op_args_ok size_bits) ops -> 0 <= ops_growth ops.
Proof.
  induction 1 as [| op ops Hop _ IH]; [done |].
  rewrite ops_growth_cons. pose proof (op_growth_nonneg op Hop). lia.
Qed.

(** Reads and writes, in any number and order, keep the invariant and the
    ownership of the heap. *)
Lemma run_ops_frame h0 ops : forall k ns,
  store_inv k ns -> heap_frame h0 k ns ->
  Forall is_file_op ops -> Forall (op_args_ok size_bits) ops ->
  proc_entry_list_size k + ops_growth ops <= SIZE_MAX size_bits ->
  exists k' ns',
    run_ops size_bits slab_addr ops k = Some (tt, k') /\
    store_inv k' ns' /\ heap_frame h0 k' ns'.
Proof.
  induction ops as [| op ops IH]; intros k ns Hinv Hframe Hfile Hargs Hfit.
  { exists k, ns. done. }
  apply Forall_cons in Hfile as [Hf Hfile].
  apply Forall_cons in Hargs as [Ha Hargs].
  rewrite ops_growth_cons in Hfit.
  pose proof (ops_growth_nonneg ops Hargs) as Hg0.
  pose proof (op_growth_nonneg op Ha) as Hg1.
  pose proof (total_buf_size_nonneg ns (inv_buf_size _ _ Hinv)) as Hnn.
  rewrite <- (inv_size _ _ Hinv) in Hnn.
  destruct op as [room length offset | gfp usrbuf length offset | |];
    simpl in Hf; [| | done ..].
  - destruct Ha as [Hlen Hoff].
    destruct (read_proc_module_returns k ns room length offset Hinv)
      as [r Hr]; [lia | done | done |].
    destruct (IH k ns Hinv Hframe Hfile Hargs) as (k' & ns' & Hrun & Hres);
      [simpl in Hfit; lia |].
    exists k', ns'. split; [| done]. simpl.
    unfold kbind at 1. unfold kbind at 1. rewrite Hr. exact Hrun.
  - destruct Ha as [Hlen Hoff]. simpl in Hfit, Hg1.
    destruct (write_proc_module_frame h0 k ns gfp usrbuf length offset
                Hinv Hframe Hlen)
      as (r & k1 & ns1 & Hr & Hinv1 & Hframe1 & Hsz1); [lia |].
    destruct (IH k1 ns1 Hinv1 Hframe1 Hfile Hargs) as (k' & ns' & Hrun & Hres);
      [lia |].
    exists k', ns'. split; [| done]. simpl.
    unfold kbind at 1. unfold kbind at 1. rewrite Hr. exact Hrun.
Qed.

(** ** Teardown and the lifetime of the module *)

(** X1. On a store that satisfies the invariant, [exit_proc_module]
    returns with the list empty and [proc_entry_list_size] zero; it frees
    every node of the list and every array a node points to, and no other
    object of the heap is freed or changed. *)
Theorem exit_frees_the_store k ns :
  store_inv k ns ->
  exists k',
    exit_proc_module k = Some (tt, k') /\
    proc_entry_list_head k' = [] /\
    proc_entry_list_size k' = 0 /\
    (forall x, x ∈ store_objects k ns -> kheap k' !! x = None) /\
    (forall x, x ∉ store_objects k ns -> kheap k' !! x = kheap k !! x).
Proof.
  intros Hinv.
  destruct (exit_proc_module_clears k ns Hinv) as (k' & Hrun & Hh & Hs & Hheap).
  exists k'. split; [done |]. split; [done |]. split; [done |].
  split; intros x Hx; rewrite Hheap; unfold store_objects in Hx.
  - by rewrite decide_True.
  - by rewrite decide_False.
Qed.

(** X2. From module load to unload nothing is leaked: after a successful
    [init_proc_module], any sequence of reads and writes (whatever their
    allocations and transfers do) and [exit_proc_module], the heap holds
    exactly the objects it held before the module was loaded, the list is
    empty and the counter is zero. *)
Theorem module_lifetime_restores_heap k0 ops :
  Forall is_file_op ops ->
  Forall (op_args_ok size_bits) ops ->
  ops_growth ops <= SIZE_MAX size_bits ->
  exists k1 k2 k3,
    init_proc_module true k0 = Some (0, k1) /\
    run_ops size_bits slab_addr ops k1 = Some (tt, k2) /\
    exit_proc_module k2 = Some (tt, k3) /\
    kheap k3 = kheap k0 /\
    proc_entry_list_head k3 = [] /\
    proc_entry_list_size k3 = 0.
Proof.
  intros Hfile Hargs Hfit.
  set (k1 := set_size (fun _ => 0) (set_head (fun _ => []) k0)).
  assert (Hinv1 : store_inv k1 []) by (by apply store_inv_empty).
  assert (Hframe1 : heap_frame (kheap k0) k1 []).
  { intros x. rewrite decide_False; [done |].
    unfold store_objects. simpl. apply not_elem_of_nil. }
  destruct (run_ops_frame (kheap k0) ops k1 [] Hinv1 Hframe1 Hfile Hargs)
    as (k2 & ns2 & Hrun & Hinv2 & Hframe2); [simpl; lia |].
  destruct (exit_proc_module_clears k2 ns2 Hinv2)
    as (k3 & Hexit & Hh & Hs & Hheap).
  exists k1, k2, k3. split; [reflexivity |]. split; [done |].
  split; [done |]. split; [| done].
  apply map_eq. intros x. rewrite Hheap.
  pose proof (Hframe2 x) as Hx. unfold store_objects in Hx.
  by destruct (decide (x ∈ proc_entry_list_head k2
                           ++ map (fun n => buf (fst n)) ns2)).
Qed.

(** ** What a read returns *)

Lemma SSIZE_MAX_bounds :
  0 <= SSIZE_MAX size_bits /\
  SSIZE_MAX size_bits <= SIZE_MAX size_bits /\
  SSIZE_MAX size_bits <= LOFF_MAX.
Proof. by_bits; lia. Qed.

(** What a read at an offset inside the store returns, with the
    conversions of the return value and of the offset resolved. *)
Lemma rd_outcome_in_range room length offset start bs :
  start <= offset < start + blen bs ->
  0 <= start -> start + blen bs <= SSIZE_MAX size_bits ->
  0 < length ->
  let copied :=
    Z.min (Z.min length (start + blen bs - offset)) (Z.of_nat room) in
  rd_outcome size_bits room length offset offset start bs
  = if copied =? 0 then
      {| rd_retval := - EFAULT; rd_offset := offset; rd_data := [] |}
    else
      {| rd_retval := copied; rd_offset := offset + copied;
         rd_data := take (Z.to_nat copied)
                      (drop (Z.to_nat (offset - start)) bs) |}.
Proof.
  intros Hcov Hstart Hend Hlen copied.
  destruct SSIZE_MAX_bounds as (_ & _ & Hloff).
  unfold rd_outcome. fold copied.
  destruct (copied =? 0) eqn:E; [reflexivity |].
  apply Z.eqb_neq in E.
  rewrite to_ssize_small, to_loff_small by (unfold copied in *; lia).
  reflexivity.
Qed.

(** The chunk that covers an offset lies inside the store. *)
Lemma chunk_end_le_size k ns pre e bs post :
  store_inv k ns -> ns = pre ++ (e, bs) :: post ->
  0 <= total (map snd pre) /\
  total (map snd pre) + blen bs <= proc_entry_list_size k /\
  proc_entry_list_size k = total (map snd ns).
Proof.
  intros Hinv Hns.
  pose proof (inv_buf_size _ _ Hinv) as Hsz.
  rewrite (inv_size _ _ Hinv), (total_buf_size_total ns Hsz).
  rewrite Hns, !map_app. simpl. rewrite total_app, total_cons.
  pose proof (blen_nonneg (concat (map snd pre))).
  pose proof (blen_nonneg (concat (map snd post))).
  unfold total in *. lia.
Qed.

(** The three ways a read on a store that satisfies the invariant ends:
    nothing to read, a negative offset, or a copy from the chunk that
    covers the offset. *)
Lemma read_proc_module_cases k ns room length offset :
  store_inv k ns ->
  proc_entry_list_size k <= SIZE_MAX size_bits ->
  0 <= length <= SIZE_MAX size_bits ->
  - LOFF_MAX - 1 <= offset <= LOFF_MAX ->
  exists r,
    read_proc_module size_bits room length offset k = Some (r, k) /\
    (r = {| rd_retval := 0; rd_offset := offset; rd_data := [] |}
     \/ r = {| rd_retval := - EINVAL; rd_offset := offset; rd_data := [] |}
     \/ exists pre e bs post,
          ns = pre ++ (e, bs) :: post /\
          0 < length /\
          total (map snd pre) <= offset < total (map snd pre) + blen bs /\
          r = rd_outcome size_bits room length offset offset
                (total (map snd pre)) bs).
Proof.
  intros Hinv Hmax Hlen Hoff.
  pose proof (total_buf_size_nonneg ns (inv_buf_size _ _ Hinv)) as Hnn.
  rewrite <- (inv_size _ _ Hinv) in Hnn.
  destruct (decide (length = 0)) as [Hl0 | Hl0].
  { eexists. split; [apply read_proc_module_past_end; [lia | by left] |].
    by left. }
  destruct (common size_bits offset >=? common size_bits (proc_entry_list_size k))
    eqn:Epast.
  { eexists. split; [| by left].
    unfold read_proc_module. rewrite (kbind_some _ _ _ _ _ eq_refl).
    rewrite Epast, orb_true_r. reflexivity. }
  destruct (offset <? 0) eqn:Eneg.
  { eexists. split; [| right; by left].
    unfold read_proc_module. rewrite (kbind_some _ _ _ _ _ eq_refl).
    rewrite Epast, Eneg.
    destruct (length =? 0) eqn:E0; [apply Z.eqb_eq in E0; lia |]. reflexivity. }
  apply Z.ltb_ge in Eneg.
  rewrite (common_small offset), (common_small (proc_entry_list_size k)),
    Z.geb_leb in Epast by lia.
  apply Z.leb_gt in Epast.
  destruct (read_proc_module_covering k ns room length offset Hinv)
    as (pre & e & bs & post & Hns & Hcov & _ & Hread); [lia ..|].
  destruct (store_split ns pre post e bs (inv_buf_size _ _ Hinv) Hns)
    as (Hcs & Hpre & He).
  rewrite Hpre, He in Hcov. rewrite Hpre in Hread.
  eexists. split; [exact Hread |]. right. right.
  exists pre, e, bs, post. split; [done |]. split; [lia |]. done.
Qed.

(** X3. On a store that satisfies the invariant and holds at most
    [SSIZE_MAX] bytes, every read returns and leaves the kernel state as it
    was, and its result is of one of two kinds: an error ([-EINVAL] or
    [-EFAULT]) with no byte stored and the offset unchanged, or a count
    that is the number of bytes stored, at most [length] and at most what
    the user buffer takes, with the offset advanced by that count. *)
Theorem read_result_is_consistent k ns room length offset :
  store_inv k ns ->
  proc_entry_list_size k <= SSIZE_MAX size_bits ->
  0 <= length <= SIZE_MAX size_bits ->
  - LOFF_MAX - 1 <= offset <= LOFF_MAX ->
  exists r,
    read_proc_module size_bits room length offset k = Some (r, k) /\
    ((rd_retval r = - EINVAL \/ rd_retval r = - EFAULT) /\
     rd_data r = [] /\ rd_offset r = offset
     \/
     rd_retval r = blen (rd_data r) /\
     rd_retval r <= Z.min length (Z.of_nat room) /\
     rd_offset r = offset + rd_retval r).
Proof.
  intros Hinv Hmax Hlen Hoff.
  destruct SSIZE_MAX_bounds as (_ & Hss & _).
  destruct (read_proc_module_cases k ns room length offset Hinv)
    as (r & Hread & Hcase); [lia | done | done |].
  exists r. split; [done |].
  destruct Hcase as [-> | [-> | (pre & e & bs & post & Hns & Hl & Hcov & ->)]].
  - right. simpl. change (blen []) with 0. lia.
  - left. simpl. tauto.
  - destruct (chunk_end_le_size k ns pre e bs post Hinv Hns) as (Hpre & Hend & _).
    rewrite rd_outcome_in_range by lia.
    set (copied := Z.min (Z.min length (total (map snd pre) + blen bs - offset))
                     (Z.of_nat room)).
    destruct (copied =? 0) eqn:E; [left; simpl; tauto |].
    apply Z.eqb_neq in E. right. simpl.
    split; [| unfold copied; lia].
    unfold blen. rewrite length_take, length_drop.
    unfold copied, blen in *. lia.
Qed.

(** ** Reading the store back *)

(** A reader that follows the offset reads the rest of the store, however
    short the single transfers are, as long as each takes a byte. *)
Lemma read_chain_rest k ns room length :
  store_inv k ns ->
  proc_entry_list_size k <= SSIZE_MAX size_bits ->
  0 < length <= SIZE_MAX size_bits ->
  (0 < room)%nat ->
  forall n offset,
    0 <= offset <= proc_entry_list_size k ->
    proc_entry_list_size k - offset <= Z.of_nat n ->
    read_chain size_bits n room length offset k
    = Some ((drop (Z.to_nat offset) (concat (map snd ns)),
             proc_entry_list_size k), k).
Proof.
  intros Hinv Hmax Hlen Hroom.
  destruct SSIZE_MAX_bounds as (_ & Hss & Hsl).
  assert (Hsize : proc_entry_list_size k = blen (concat (map snd ns))).
  { rewrite (inv_size _ _ Hinv).
    by rewrite (total_buf_size_total ns (inv_buf_size _ _ Hinv)). }
  assert (Hend : forall offset,
             offset = proc_entry_list_size k ->
             drop (Z.to_nat offset) (concat (map snd ns)) = []).
  { intros offset ->. apply drop_ge. rewrite Hsize. unfold blen. lia. }
  induction n as [| n IH]; intros offset Hoff Hfuel.
  { simpl. unfold kret. rewrite Hend by lia. do 3 f_equal. lia. }
  simpl.
  destruct (decide (offset = proc_entry_list_size k)) as [Heq | Hlt].
  { erewrite kbind_some; cycle 1.
    { apply read_proc_module_past_end; [lia |]. right. lia. }
    simpl. unfold kret. rewrite Hend by done. by rewrite Heq. }
  destruct (read_proc_module_covering k ns room length offset Hinv)
    as (pre & e & bs & post & Hns & Hcov & _ & Hread); [lia ..|].
  destruct (store_split ns pre post e bs (inv_buf_size _ _ Hinv) Hns)
    as (_ & Hpre' & He).
  rewrite Hpre', He in Hcov. rewrite Hpre' in Hread. clear Hpre' He.
  destruct (chunk_end_le_size k ns pre e bs post Hinv Hns) as (Hpre & Hce & _).
  rewrite (kbind_some _ _ _ _ _ Hread).
  rewrite rd_outcome_in_range by lia.
  set (copied := Z.min (Z.min length (total (map snd pre) + blen bs - offset))
                   (Z.of_nat room)).
  assert (Hcp : 0 < copied <= total (map snd pre) + blen bs - offset)
    by (unfold copied; lia).
  destruct (copied =? 0) eqn:E; [apply Z.eqb_eq in E; lia |].
  simpl.
  destruct (copied <=? 0) eqn:E1; [apply Z.leb_le in E1; lia |].
  rewrite (kbind_some _ _ _ _ _ (IH (offset + copied) ltac:(lia) ltac:(lia))).
  unfold kret. simpl. do 3 f_equal.
  assert (Hcs : map snd ns = map snd pre ++ bs :: map snd post).
  { rewrite Hns, map_app. reflexivity. }
  rewrite <- (slice_in_chunk (map snd pre) (map snd post) bs offset copied)
    by lia.
  rewrite <- Hcs.
  replace (Z.to_nat (offset + copied))
    with (Z.to_nat offset + Z.to_nat copied)%nat by lia.
  rewrite <- drop_drop. apply take_drop.
Qed.

(** X4. A reader that starts at any offset inside the store and issues up
    to [n] reads, each at the offset the one before returned, obtains all
    the bytes of the concatenation of the chunks from its start offset on
    and ends at offset [proc_entry_list_size], for every [length > 0] and
    every user buffer that takes at least one byte per read; [n] reads
    suffice when [n] is at least the number of bytes left. *)
Theorem read_chain_reads_the_rest k ns room length n offset :
  store_inv k ns ->
  proc_entry_list_size k <= SSIZE_MAX size_bits ->
  0 < length <= SIZE_MAX size_bits ->
  (0 < room)%nat ->
  0 <= offset <= proc_entry_list_size k ->
  proc_entry_list_size k - offset <= Z.of_nat n ->
  read_chain size_bits n room length offset k
  = Some ((drop (Z.to_nat offset) (concat (map snd ns)),
           proc_entry_list_size k), k).
Proof. intros. by apply read_chain_rest. Qed.

(** X5. Round trip: after a sequence of writes on the empty store each of
    which the environment lets succeed, a reader that follows the offset
    from 0 reads back the concatenation of the transferred byte sequences,
    in the order of the writes. *)
Theorem written_bytes_are_read_back k0 reqs room length n :
  proc_entry_list_head k0 = [] -> proc_entry_list_size k0 = 0 ->
  Forall (wr_stores size_bits) reqs ->
  total (wr_transfers reqs) <= SSIZE_MAX size_bits ->
  0 < length <= SIZE_MAX size_bits ->
  (0 < room)%nat ->
  total (wr_transfers reqs) <= Z.of_nat n ->
  exists rs k,
    write_all size_bits slab_addr reqs k0 = Some (rs, k) /\
    read_chain size_bits n room length 0 k
    = Some ((concat (wr_transfers reqs), total (wr_transfers reqs)), k).
Proof.
  intros Hh Hs Hargs Hfit Hlen Hroom Hfuel.
  destruct SSIZE_MAX_bounds as (_ & Hss & _).
  destruct (write_all_stores reqs k0 [] (store_inv_empty k0 Hh Hs) Hargs)
    as (rs & k & ns & Hrun & _ & Hinv & Hcs & Hsz); [lia |].
  exists rs, k. split; [done |]. simpl in Hinv.
  rewrite Hs, Z.add_0_l in Hsz.
  pose proof (blen_nonneg (concat (wr_transfers reqs))) as Hnn.
  unfold total in Hfit, Hfuel, Hsz |- *.
  rewrite (read_chain_rest k ns room length Hinv) by lia.
  rewrite Hcs, Hsz. reflexivity.
Qed.

(** ** What a write returns and allocates *)

(** X6. On a store that satisfies the invariant, a write whose
    allocations succeed and whose user buffer has at least one readable
    byte stores [n], the smaller of [length] and the number of readable
    bytes: it returns [n], advances the offset and [proc_entry_list_size]
    by [n], and leaves exactly two new objects in the heap, the node and
    an array with the first [n] bytes of the user buffer; the staging array
    is freed, and every other object keeps its contents (for a node:
    [buf] and [buf_size]; the links between the nodes are the order of the
    list, which gains the new node at its end). The counts are those that
    fit the C types. *)
Theorem write_returns_bytes_stored k ns gfp usrbuf length offset :
  store_inv k ns ->
  entry_ok gfp = true -> tmp_ok gfp = true -> dup_ok gfp = true ->
  usrbuf <> [] -> 0 < length <= SIZE_MAX size_bits -> 0 <= offset ->
  Z.min length (blen usrbuf) <= SSIZE_MAX size_bits ->
  offset + Z.min length (blen usrbuf) <= LOFF_MAX ->
  proc_entry_list_size k + Z.min length (blen usrbuf) <= SIZE_MAX size_bits ->
  exists k' e b,
    write_proc_module size_bits slab_addr gfp usrbuf length offset k
    = Some ({| wr_retval := Z.min length (blen usrbuf);
               wr_offset := offset + Z.min length (blen usrbuf) |}, k') /\
    proc_entry_list_size k'
    = proc_entry_list_size k + Z.min length (blen usrbuf) /\
    proc_entry_list_head k' = proc_entry_list_head k ++ [e] /\
    e <> b /\ kheap k !! e = None /\ kheap k !! b = None /\
    kheap k' !! e
    = Some (KEntry {| buf := b; buf_size := Z.min length (blen usrbuf) |}) /\
    kheap k' !! b
    = Some (KBytes (take (Z.to_nat (Z.min length (blen usrbuf))) usrbuf)) /\
    (forall x, x <> e -> x <> b -> kheap k' !! x = kheap k !! x) /\
    store_inv k'
      (ns ++ [({| buf := b; buf_size := Z.min length (blen usrbuf) |},
               take (Z.to_nat (Z.min length (blen usrbuf))) usrbuf)]).
Proof.
  intros Hinv He Ht Hd Hu Hlen Hoff Hret Hcur Hfit.
  pose proof (store_inv_tail_live k ns Hinv) as Htail.
  pose proof (total_buf_size_nonneg ns (inv_buf_size _ _ Hinv)) as Hsz.
  rewrite <- (inv_size _ _ Hinv) in Hsz.
  destruct (write_proc_module_links k gfp usrbuf length offset Htail He Ht Hd Hu Hlen Hoff)
    as (Hfe & Hfb & Heb & Hrun).
  assert (Hn : 0 < Z.min length (blen usrbuf)).
  { unfold blen. destruct usrbuf; [done |]. simpl Datatypes.length. lia. }
  pose proof (blen_wr_transfer usrbuf length ltac:(lia)) as Hbl.
  assert (Hinv' := store_inv_link k ns _ _ (wr_transfer usrbuf length)
                     Hinv Hfe Hfb Heb ltac:(lia)).
  rewrite Hbl in Hinv'.
  rewrite to_ssize_small, to_loff_small, to_size_small in Hrun
    by (unfold LOFF_MAX in *; lia).
  rewrite to_size_small in Hinv' by lia.
  eexists _, _, _. split; [exact Hrun |]. simpl.
  split; [done |]. split; [done |]. split; [done |].
  split; [done |]. split; [done |].
  split; [by rewrite lookup_insert_eq |].
  split; [by rewrite lookup_insert_ne, lookup_insert_eq |].
  split; [| exact Hinv'].
  intros x Hxe Hxb. by rewrite !lookup_insert_ne.
Qed.


(** ** Reads at a negative offset, by data model *)

(** X8. A read of a non-zero length at a negative offset leaves the state
    and the offset as they were and stores no byte; it returns 0 where
    [size_t] is 64 bits wide, the comparison of the offset with
    [proc_entry_list_size] being unsigned there, and [-EINVAL] where it is
    32 bits wide. *)
Theorem read_negative_offset_by_data_model k room length offset :
  0 <= proc_entry_list_size k <= SSIZE_MAX size_bits ->
  length <> 0 ->
  - LOFF_MAX - 1 <= offset < 0 ->
  read_proc_module size_bits room length offset k
  = Some ({| rd_retval := if size_bits =? 64 then 0 else - EINVAL;
             rd_offset := offset; rd_data := [] |}, k).
Proof.
  intros Hsize Hlen Hoff.
  destruct SSIZE_MAX_bounds as (_ & Hss & Hsl).
  destruct size_bits_ok as [H32 | H64].
  - rewrite H32 at 2. simpl.
    apply read_negative_offset_ilp32; (done || lia).
  - rewrite H64 at 2. simpl.
    apply read_negative_offset_lp64; (done || lia).
Qed.

(** ** Reads of bytes stored earlier *)

(** An offset is covered by one chunk only. *)
Lemma covering_unique (pre : list (proc_entry_list * list byte)) :
  forall pre' x x' post post' off,
    pre ++ x :: post = pre' ++ x' :: post' ->
    total (map snd pre) <= off < total (map snd pre) + blen (snd x) ->
    total (map snd pre') <= off < total (map snd pre') + blen (snd x') ->
    pre = pre' /\ x = x'.
Proof.
  induction pre as [| a pre IH]; intros pre' x x' post post' off Heq Hc Hc'.
  - destruct pre' as [| a' pre']; simpl in Heq.
    + by simplify_eq.
    + simplify_eq. simpl in Hc, Hc'. rewrite total_cons in Hc'.
      unfold total, blen in *. simpl in Hc. lia.
  - destruct pre' as [| a' pre']; simpl in Heq.
    + simplify_eq. simpl in Hc, Hc'. rewrite total_cons in Hc.
      unfold total, blen in *. simpl in Hc'. lia.
    + injection Heq as -> Heq. simpl in Hc, Hc'.
      rewrite total_cons in Hc, Hc'.
      destruct (IH pre' x x' post post' (off - blen (snd a')) Heq) as [-> ->];
        [lia | lia |]. done.
Qed.

(** X9. Appending does not disturb what is stored: whatever a write does,
    a read at an offset below the [proc_entry_list_size] of before returns
    after the write the result it returned before it. *)
Theorem appends_do_not_disturb_reads k ns gfp usrbuf wlen woff room length offset :
  store_inv k ns ->
  0 <= wlen <= SIZE_MAX size_bits ->
  proc_entry_list_size k + Z.min wlen (blen usrbuf) <= SIZE_MAX size_bits ->
  0 < length <= SIZE_MAX size_bits ->
  0 <= offset < proc_entry_list_size k ->
  exists w k' r,
    write_proc_module size_bits slab_addr gfp usrbuf wlen woff k
    = Some (w, k') /\
    read_proc_module size_bits room length offset k = Some (r, k) /\
    read_proc_module size_bits room length offset k' = Some (r, k').
Proof.
  intros Hinv Hwlen Hfit Hlen Hoff.
  pose proof (blen_nonneg usrbuf) as Hu0.
  destruct (read_proc_module_covering k ns room length offset Hinv)
    as (pre & e & bs & post & Hns & Hcov & _ & Hread); [lia ..|].
  destruct (write_proc_module_store k ns gfp usrbuf wlen woff Hinv Hwlen Hfit)
    as (w & k' & Hw & [[-> _] | (e1 & Hinv' & He1 & He1' & _ & Hsz')]).
  { eexists w, k, _. done. }
  exists w, k'. eexists. split; [done |]. split; [exact Hread |].
  destruct (read_proc_module_covering k' _ room length offset Hinv')
    as (pre' & e' & bs' & post' & Hns' & Hcov' & _ & Hread'); [lia ..|].
  rewrite Hread'. do 2 f_equal.
  pose proof (inv_buf_size _ _ Hinv) as Hbs.
  pose proof (inv_buf_size _ _ Hinv') as Hbs'.
  destruct (store_split ns pre post e bs Hbs Hns) as (_ & Hpre & He).
  destruct (store_split _ pre' post' e' bs' Hbs' Hns') as (_ & Hpre' & He').
  rewrite Hns, <- app_assoc in Hns'. simpl in Hns'.
  destruct (covering_unique pre pre' (e, bs) (e', bs') _ post' offset Hns')
    as [-> Heq]; [simpl; lia | simpl; lia |].
  by simplify_eq.
Qed.

(** X10. Read your write: after a write that stores [n] bytes, a read at
    the offset that was [proc_entry_list_size] before the write, of at
    least [n] bytes into a user buffer that takes them, returns exactly
    the bytes the write transferred and advances the offset by [n]. *)
Theorem read_returns_what_write_stored k ns gfp usrbuf wlen woff room length :
  store_inv k ns ->
  entry_ok gfp = true -> tmp_ok gfp = true -> dup_ok gfp = true ->
  usrbuf <> [] -> 0 < wlen <= SIZE_MAX size_bits -> 0 <= woff ->
  proc_entry_list_size k + Z.min wlen (blen usrbuf) <= SSIZE_MAX size_bits ->
  Z.min wlen (blen usrbuf) <= length <= SIZE_MAX size_bits ->
  Z.min wlen (blen usrbuf) <= Z.of_nat room ->
  exists w k',
    write_proc_module size_bits slab_addr gfp usrbuf wlen woff k
    = Some (w, k') /\
    read_proc_module size_bits room length (proc_entry_list_size k) k'
    = Some ({| rd_retval := Z.min wlen (blen usrbuf);
               rd_offset := proc_entry_list_size k + Z.min wlen (blen usrbuf);
               rd_data := wr_transfer usrbuf wlen |}, k').
Proof.
  intros Hinv He Ht Hd Hu Hwlen Hwoff Hfit Hlen Hroom.
  pose proof (store_inv_tail_live k ns Hinv) as Htail.
  destruct SSIZE_MAX_bounds as (_ & Hss & _).
  pose proof (total_buf_size_nonneg ns (inv_buf_size _ _ Hinv)) as Hnn.
  rewrite <- (inv_size _ _ Hinv) in Hnn.
  assert (Hn : 0 < Z.min wlen (blen usrbuf)).
  { unfold blen. destruct usrbuf; [done |]. simpl Datatypes.length. lia. }
  destruct (write_proc_module_links k gfp usrbuf wlen woff Htail He Ht Hd Hu Hwlen Hwoff)
    as (Hfe & Hfb & Heb & Hrun).
  pose proof (blen_wr_transfer usrbuf wlen ltac:(lia)) as Hbl.
  eexists _, _. split; [exact Hrun |].
  match goal with
  | |- read_proc_module _ _ _ _ ?k1 = _ => set (k' := k1)
  end.
  set (new := ({| buf := wr_dup slab_addr k usrbuf wlen;
                  buf_size := Z.min wlen (blen usrbuf) |},
               wr_transfer usrbuf wlen)).
  assert (Hinv' : store_inv k' (ns ++ [new])).
  { unfold k', new. rewrite <- Hbl. apply store_inv_link; try done. lia. }
  assert (Hsz' : proc_entry_list_size k'
                 = proc_entry_list_size k + Z.min wlen (blen usrbuf)).
  { unfold k'. simpl. apply to_size_small. lia. }
  destruct (read_proc_module_covering k' _ room length (proc_entry_list_size k) Hinv')
    as (pre' & e' & bs' & post' & Hns' & Hcov' & _ & Hread'); [lia ..|].
  destruct (store_split _ pre' post' e' bs' (inv_buf_size _ _ Hinv') Hns')
    as (_ & Hpre' & He').
  rewrite Hpre', He' in Hcov'. rewrite Hpre' in Hread'.
  assert (Htot : total (map snd ns) = proc_entry_list_size k).
  { rewrite (inv_size _ _ Hinv).
    by rewrite (total_buf_size_total ns (inv_buf_size _ _ Hinv)). }
  destruct (covering_unique ns pre' new (e', bs') [] post'
              (proc_entry_list_size k) Hns') as [<- Heq].
  { unfold new. simpl. lia. }
  { simpl. lia. }
  unfold new in Heq. injection Heq as <- <-.
  rewrite Hread'. rewrite Htot.
  rewrite rd_outcome_in_range by lia.
  rewrite Hbl.
  replace (Z.min (Z.min length
                    (proc_entry_list_size k + Z.min wlen (blen usrbuf)
                     - proc_entry_list_size k)) (Z.of_nat room))
    with (Z.min wlen (blen usrbuf)) by lia.
  destruct (Z.min wlen (blen usrbuf) =? 0) eqn:E; [apply Z.eqb_eq in E; lia |].
  rewrite Z.sub_diag. change (Z.to_nat 0) with 0%nat. rewrite drop_0.
  rewrite take_ge; [reflexivity |].
  unfold blen in *. lia.
Qed.

End Properties.

(** * The LP64 kernel on the store "hello", "world!" *)

Lemma lp64_ok : lp64 = 32 \/ lp64 = 64.
Proof. right. reflexivity. Defined.

Lemma first_free_fresh (h : gmap loc kobj) : h !! first_free h = None.
Proof. unfold first_free. apply not_elem_of_dom. apply is_fresh. Defined.

Lemma store_inv_init : store_inv k_init [].
Proof. by apply store_inv_empty. Defined.

Lemma store_inv_hello_world : store_inv k_hello_world ns_hello_world.
Proof.
  split.
  - vm_compute. reflexivity.
  - repeat constructor.
  - reflexivity.
  - simpl. apply (bool_decide_unpack _). vm_compute. exact I.
Defined.

Lemma chunks_nonempty_hello_world : chunks_nonempty ns_hello_world.
Proof. repeat constructor; simpl; lia. Defined.

Lemma wr_stores_hello_world : Forall (wr_stores lp64) reqs_hello_world.
Proof.
  repeat constructor; simpl; try discriminate; unfold SIZE_MAX, lp64; lia.
Defined.

(** The two writes of [reqs_hello_world] build [k_hello_world]. *)
Lemma write_all_hello_world :
  write_all lp64 first_free reqs_hello_world k_init
  = Some ([{| wr_retval := 5; wr_offset := 5 |};
           {| wr_retval := 6; wr_offset := 11 |}], k_hello_world).
Proof. vm_compute. reflexivity. Qed.

(** The reads of the end-to-end example. *)
Lemma read_hello_world_examples :
  read_proc_module lp64 10 10 0 k_hello_world
  = Some ({| rd_retval := 5; rd_offset := 5; rd_data := hello |}, k_hello_world) /\
  read_proc_module lp64 10 10 5 k_hello_world
  = Some ({| rd_retval := 6; rd_offset := 11; rd_data := world |}, k_hello_world) /\
  read_proc_module lp64 10 3 2 k_hello_world
  = Some ({| rd_retval := 3; rd_offset := 5;
             rd_data := list_byte_of_string "llo" |}, k_hello_world) /\
  read_proc_module lp64 10 5 11 k_hello_world
  = Some ({| rd_retval := 0; rd_offset := 11; rd_data := [] |}, k_hello_world).
Proof. repeat split; vm_compute; reflexivity. Qed.

(** C2. The read of 5 bytes at offset -1 on an LP64 kernel returns 0, not
    [-EINVAL]; the write with the same arguments returns [-EINVAL]. Both
    leave the kernel state as it was. *)
Theorem read_negative_offset_returns_zero :
  read_proc_module lp64 16 5 (-1) k_hello_world
  = Some ({| rd_retval := 0; rd_offset := -1; rd_data := [] |}, k_hello_world) /\
  write_proc_module lp64 first_free gfp_all_ok hello 5 (-1) k_hello_world
  = Some ({| wr_retval := - EINVAL; wr_offset := -1 |}, k_hello_world).
Proof. split; vm_compute; reflexivity. Qed.

(** * The claims on the concrete store *)

Ltac concrete :=
  first
    [ unfold SIZE_MAX, SSIZE_MAX, LOFF_MAX, lp64; simpl; lia
    | vm_compute; repeat split; discriminate ].

(** C1 at the read of 10 bytes at offset 2: the chunk is "hello". *)
Lemma read_returns_chunk_bounded_slice_witness :
  store_inv k_hello_world ns_hello_world /\
  proc_entry_list_size k_hello_world <= SIZE_MAX lp64 /\
  0 <= 2 < proc_entry_list_size k_hello_world /\
  0 < 10 <= SIZE_MAX lp64 /\
  exists pre c post r,
    map snd ns_hello_world = pre ++ c :: post /\
    total pre <= 2 < total pre + blen c /\
    read_proc_module lp64 10 10 2 k_hello_world = Some (r, k_hello_world) /\
    let n := Z.min 10 (total pre + blen c - 2) in
    rd_data r
    = take (Z.to_nat (Z.min n (Z.of_nat 10)))
        (drop (Z.to_nat (2 - total pre)) c) /\
    (n <= Z.of_nat 10 ->
     blen (rd_data r) = n /\
     rd_data r
     = take (Z.to_nat n)
         (drop (Z.to_nat 2) (concat (map snd ns_hello_world)))).
Proof.
  split; [exact store_inv_hello_world |].
  split; [concrete |]. split; [concrete |]. split; [concrete |].
  apply (read_returns_chunk_bounded_slice lp64 lp64_ok
           k_hello_world ns_hello_world 10 10 2 store_inv_hello_world);
    concrete.
Defined.

(** C6 at the read of 10 bytes at offset 5 into a user buffer that takes
    2 bytes. *)
Lemma read_short_transfer_witness :
  store_inv k_hello_world ns_hello_world /\
  proc_entry_list_size k_hello_world <= SIZE_MAX lp64 /\
  0 <= 5 < proc_entry_list_size k_hello_world /\
  0 < 10 <= SIZE_MAX lp64 /\
  Z.of_nat 2 <= SSIZE_MAX lp64 /\
  5 + Z.of_nat 2 <= LOFF_MAX /\
  exists pre c post,
    map snd ns_hello_world = pre ++ c :: post /\
    total pre <= 5 < total pre + blen c /\
    let to_copy := Z.min 10 (total pre + blen c - 5) in
    0 < to_copy /\
    (0 < Z.of_nat 2 < to_copy ->
     read_proc_module lp64 2 10 5 k_hello_world
     = Some ({| rd_retval := Z.of_nat 2;
                rd_offset := 5 + Z.of_nat 2;
                rd_data := take 2 (drop (Z.to_nat (5 - total pre)) c) |},
             k_hello_world)) /\
    (2%nat = 0%nat ->
     read_proc_module lp64 2 10 5 k_hello_world
     = Some ({| rd_retval := - EFAULT; rd_offset := 5; rd_data := [] |},
             k_hello_world)).
Proof.
  split; [exact store_inv_hello_world |].
  split; [concrete |]. split; [concrete |]. split; [concrete |].
  split; [concrete |]. split; [concrete |].
  apply (read_short_transfer lp64 lp64_ok
           k_hello_world ns_hello_world 2 10 5 store_inv_hello_world);
    concrete.
Defined.

(** C10 at the read of 3 bytes at offset 7, inside "world!". *)
Lemma read_scan_in_bounds_witness :
  store_inv k_hello_world ns_hello_world /\
  proc_entry_list_size k_hello_world <= SIZE_MAX lp64 /\
  0 <= 7 < proc_entry_list_size k_hello_world /\
  0 < 3 <= SIZE_MAX lp64 /\
  exists pre e bs post r,
    ns_hello_world = pre ++ (e, bs) :: post /\
    let pos := total_buf_size (map fst pre) in
    let next_pos := pos + buf_size e in
    rd_list_for_each_entry lp64 10 3 7 7
      (proc_entry_list_head k_hello_world) 0 k_hello_world
    = Some (Some r, k_hello_world) /\
    rd_copy lp64 10 3 7 7 e pos next_pos k_hello_world
    = Some (r, k_hello_world) /\
    r = rd_outcome lp64 10 3 7 7 pos bs /\
    pos <= 7 < next_pos /\
    kheap k_hello_world !! buf e = Some (KBytes bs) /\
    buf_size e = blen bs /\
    rd_index lp64 7 pos = 7 - pos /\
    rd_read_size lp64 next_pos 7 3 = Z.min 3 (next_pos - 7) /\
    0 <= rd_index lp64 7 pos /\
    0 < rd_read_size lp64 next_pos 7 3 /\
    rd_index lp64 7 pos + rd_read_size lp64 next_pos 7 3 <= buf_size e /\
    is_Some (load_bytes (buf e) (rd_index lp64 7 pos)
               (rd_read_size lp64 next_pos 7 3) k_hello_world).
Proof.
  split; [exact store_inv_hello_world |].
  split; [concrete |]. split; [concrete |]. split; [concrete |].
  apply (read_scan_in_bounds lp64 lp64_ok
           k_hello_world ns_hello_world 10 3 7 store_inv_hello_world);
    concrete.
Defined.

(** C7 at the read of 5 bytes at offset 11, the end of the store. *)
Lemma read_empty_result_witness :
  0 <= proc_entry_list_size k_hello_world <= SIZE_MAX lp64 /\
  (5 = 0 \/ (0 <= 11 <= LOFF_MAX /\ proc_entry_list_size k_hello_world <= 11)) /\
  read_proc_module lp64 10 5 11 k_hello_world
  = Some ({| rd_retval := 0; rd_offset := 11; rd_data := [] |}, k_hello_world).
Proof.
  split; [concrete |]. split; [right; concrete |].
  apply (read_empty_result lp64 lp64_ok k_hello_world 10 5 11);
    [concrete | right; concrete].
Defined.

(** C3 at the two writes that build the store "hello", "world!", and at a
    third write on it. *)
Lemma appends_sum_and_size_invariant_witness :
  Forall (wr_stores lp64) reqs_hello_world /\
  (exists rs k ns,
     write_all lp64 first_free reqs_hello_world k_init = Some (rs, k) /\
     map wr_retval rs = [5; 6] /\
     store_inv k ns /\
     map snd ns = [hello; world] /\
     proc_entry_list_size k = 11 /\
     proc_entry_list_size k = total_buf_size (map fst ns))
  /\
  (exists k' ns',
     run_op lp64 first_free (ProcWrite gfp_all_ok hello 5 11) k_hello_world
     = Some (tt, k') /\
     store_inv k' ns' /\
     proc_entry_list_size k' = total_buf_size (map fst ns')).
Proof.
  destruct (appends_sum_and_size_invariant lp64 first_free lp64_ok first_free_fresh)
    as [Hseq Hop].
  split; [exact wr_stores_hello_world |]. split.
  - destruct (Hseq k_init reqs_hello_world eq_refl eq_refl wr_stores_hello_world)
      as (rs & k & ns & Hrun & Hret & Hinv & Hcs & Hsz & Hsum); [concrete |].
    exists rs, k, ns.
    split; [exact Hrun |]. split; [exact Hret |]. split; [exact Hinv |].
    split; [exact Hcs |]. split; [exact Hsz | exact Hsum].
  - apply (Hop k_hello_world ns_hello_world (ProcWrite gfp_all_ok hello 5 11));
      [exact store_inv_hello_world | concrete | concrete].
Defined.

(** C4 at the write of "hello" at offsets 0 and 11. *)
Lemma write_appends_for_every_offset_witness :
  store_inv k_hello_world ns_hello_world /\
  0 < 5 <= SIZE_MAX lp64 /\ 0 <= 0 /\ 0 <= 11 /\
  exists r1 r2 k',
    write_proc_module lp64 first_free gfp_all_ok hello 5 0 k_hello_world
    = Some (r1, k') /\
    write_proc_module lp64 first_free gfp_all_ok hello 5 11 k_hello_world
    = Some (r2, k') /\
    wr_retval r1 = wr_retval r2 /\
    (entry_ok gfp_all_ok = true -> tmp_ok gfp_all_ok = true ->
     dup_ok gfp_all_ok = true -> hello <> [] ->
     exists p e,
       proc_entry_list_head k' = proc_entry_list_head k_hello_world ++ [p] /\
       kheap k' !! p = Some (KEntry e) /\
       buf_size e = Z.min 5 (blen hello) /\
       store_nodes k' = Some (ns_hello_world ++ [(e, wr_transfer hello 5)])).
Proof.
  split; [exact store_inv_hello_world |].
  split; [concrete |]. split; [lia |]. split; [lia |].
  apply (write_appends_for_every_offset lp64 first_free lp64_ok first_free_fresh
           k_hello_world ns_hello_world gfp_all_ok hello 5 0 11
           store_inv_hello_world); concrete.
Defined.

(** C5 at a write of "hello" whose chunk allocation fails. *)
Lemma write_failure_restores_state_witness :
  0 < 5 /\ 0 <= 11 /\
  (entry_ok gfp_dup_fails = false \/ tmp_ok gfp_dup_fails = false
   \/ dup_ok gfp_dup_fails = false \/ hello = []) /\
  exists errval,
    write_proc_module lp64 first_free gfp_dup_fails hello 5 11 k_hello_world
    = Some ({| wr_retval := - errval; wr_offset := 11 |}, k_hello_world) /\
    (errval = EFAULT /\ entry_ok gfp_dup_fails = true
       /\ tmp_ok gfp_dup_fails = true /\ hello = []
     \/
     errval = ENOMEM /\
     (entry_ok gfp_dup_fails = false \/ tmp_ok gfp_dup_fails = false
      \/ (hello <> [] /\ dup_ok gfp_dup_fails = false))).
Proof.
  split; [lia |]. split; [lia |].
  split; [right; right; left; reflexivity |].
  apply (write_failure_restores_state lp64 first_free lp64_ok first_free_fresh
           k_hello_world gfp_dup_fails hello 5 11);
    [lia | lia | right; right; left; reflexivity].
Defined.

(** C8 at a third write on the store. *)
Lemma chunks_hold_at_least_one_byte_witness :
  (exists r k',
     write_proc_module lp64 first_free gfp_all_ok world 4 11 k_hello_world
     = Some (r, k') /\
     (k' = k_hello_world \/
      exists e,
        store_inv k' (ns_hello_world ++ [(e, wr_transfer world 4)]) /\
        buf_size e = blen (wr_transfer world 4) /\
        1 <= buf_size e))
  /\
  (exists k' ns',
     run_op lp64 first_free (ProcWrite gfp_all_ok world 4 11) k_hello_world
     = Some (tt, k') /\
     store_inv k' ns' /\ chunks_nonempty ns').
Proof.
  destruct (chunks_hold_at_least_one_byte lp64 first_free lp64_ok first_free_fresh)
    as [Hwr Hop].
  split.
  - apply (Hwr k_hello_world ns_hello_world gfp_all_ok world 4 11);
      [exact store_inv_hello_world | concrete | concrete].
  - apply (Hop k_hello_world ns_hello_world (ProcWrite gfp_all_ok world 4 11));
      [exact store_inv_hello_world | exact chunks_nonempty_hello_world
      | concrete | concrete].
Defined.

(** * The further properties on the concrete store *)

(** X1 at the teardown of the store "hello", "world!". *)
Lemma exit_frees_the_store_witness :
  store_inv k_hello_world ns_hello_world /\
  exists k',
    exit_proc_module k_hello_world = Some (tt, k') /\
    proc_entry_list_head k' = [] /\
    proc_entry_list_size k' = 0 /\
    (forall x, x ∈ store_objects k_hello_world ns_hello_world ->
               kheap k' !! x = None) /\
    (forall x, x ∉ store_objects k_hello_world ns_hello_world ->
               kheap k' !! x = kheap k_hello_world !! x).
Proof.
  split; [exact store_inv_hello_world |].
  apply (exit_frees_the_store lp64 lp64_ok k_hello_world ns_hello_world
           store_inv_hello_world).
Defined.

(** X2 at a module lifetime that starts on the heap of [k_hello_world]. *)
Lemma module_lifetime_restores_heap_witness :
  Forall is_file_op ops_hello_world /\
  Forall (op_args_ok lp64) ops_hello_world /\
  ops_growth ops_hello_world <= SIZE_MAX lp64 /\
  exists k1 k2 k3,
    init_proc_module true k_hello_world = Some (0, k1) /\
    run_ops lp64 first_free ops_hello_world k1 = Some (tt, k2) /\
    exit_proc_module k2 = Some (tt, k3) /\
    kheap k3 = kheap k_hello_world /\
    proc_entry_list_head k3 = [] /\
    proc_entry_list_size k3 = 0.
Proof.
  assert (H1 : Forall is_file_op ops_hello_world)
    by (repeat constructor).
  assert (H2 : Forall (op_args_ok lp64) ops_hello_world)
    by (repeat constructor; concrete).
  assert (H3 : ops_growth ops_hello_world <= SIZE_MAX lp64) by concrete.
  split; [exact H1 |]. split; [exact H2 |]. split; [exact H3 |].
  exact (module_lifetime_restores_heap lp64 first_free lp64_ok first_free_fresh
           k_hello_world ops_hello_world H1 H2 H3).
Defined.

(** X3 at the read of 10 bytes at offset 2 into a buffer that takes 2. *)
Lemma read_result_is_consistent_witness :
  store_inv k_hello_world ns_hello_world /\
  proc_entry_list_size k_hello_world <= SSIZE_MAX lp64 /\
  exists r,
    read_proc_module lp64 2 10 2 k_hello_world = Some (r, k_hello_world) /\
    ((rd_retval r = - EINVAL \/ rd_retval r = - EFAULT) /\
     rd_data r = [] /\ rd_offset r = 2
     \/
     rd_retval r = blen (rd_data r) /\
     rd_retval r <= Z.min 10 (Z.of_nat 2) /\
     rd_offset r = 2 + rd_retval r).
Proof.
  split; [exact store_inv_hello_world |]. split; [concrete |].
  apply (read_result_is_consistent lp64 lp64_ok k_hello_world ns_hello_world
           2 10 2 store_inv_hello_world); concrete.
Defined.

(** X4 at a reader of 4 bytes at a time, from offset 3, 8 reads at most. *)
Lemma read_chain_reads_the_rest_witness :
  store_inv k_hello_world ns_hello_world /\
  0 <= 3 <= proc_entry_list_size k_hello_world /\
  proc_entry_list_size k_hello_world - 3 <= Z.of_nat 8 /\
  read_chain lp64 8 4 4 3 k_hello_world
  = Some ((drop (Z.to_nat 3) (concat (map snd ns_hello_world)),
           proc_entry_list_size k_hello_world), k_hello_world).
Proof.
  split; [exact store_inv_hello_world |].
  split; [concrete |]. split; [concrete |].
  apply (read_chain_reads_the_rest lp64 lp64_ok k_hello_world ns_hello_world
           4 4 8 3 store_inv_hello_world); concrete.
Defined.

(** X5 at the two writes of "hello" and "world!", read back 3 bytes at a
    time. *)
Lemma written_bytes_are_read_back_witness :
  Forall (wr_stores lp64) reqs_hello_world /\
  total (wr_transfers reqs_hello_world) <= SSIZE_MAX lp64 /\
  total (wr_transfers reqs_hello_world) <= Z.of_nat 11 /\
  exists rs k,
    write_all lp64 first_free reqs_hello_world k_init = Some (rs, k) /\
    read_chain lp64 11 3 3 0 k
    = Some ((list_byte_of_string "helloworld!", 11), k).
Proof.
  split; [exact wr_stores_hello_world |].
  split; [concrete |]. split; [concrete |].
  destruct (written_bytes_are_read_back lp64 first_free lp64_ok first_free_fresh
              k_init reqs_hello_world 3 3 11 eq_refl eq_refl
              wr_stores_hello_world)
    as (rs & k & Hrun & Hread); [concrete ..|].
  exists rs, k. split; [exact Hrun | exact Hread].
Defined.

(** X6 at a write of 9 bytes from a user buffer of which "world!" is
    readable: 6 bytes are stored. *)
Lemma write_returns_bytes_stored_witness :
  store_inv k_hello_world ns_hello_world /\
  world <> [] /\ 0 < 9 <= SIZE_MAX lp64 /\ 0 <= 11 /\
  exists k' e b,
    write_proc_module lp64 first_free gfp_all_ok world 9 11 k_hello_world
    = Some ({| wr_retval := Z.min 9 (blen world);
               wr_offset := 11 + Z.min 9 (blen world) |}, k') /\
    proc_entry_list_size k'
    = proc_entry_list_size k_hello_world + Z.min 9 (blen world) /\
    proc_entry_list_head k' = proc_entry_list_head k_hello_world ++ [e] /\
    e <> b /\ kheap k_hello_world !! e = None /\
    kheap k_hello_world !! b = None /\
    kheap k' !! e
    = Some (KEntry {| buf := b; buf_size := Z.min 9 (blen world) |}) /\
    kheap k' !! b
    = Some (KBytes (take (Z.to_nat (Z.min 9 (blen world))) world)) /\
    (forall x, x <> e -> x <> b -> kheap k' !! x = kheap k_hello_world !! x) /\
    store_inv k'
      (ns_hello_world
       ++ [({| buf := b; buf_size := Z.min 9 (blen world) |},
            take (Z.to_nat (Z.min 9 (blen world))) world)]).
Proof.
  split; [exact store_inv_hello_world |].
  split; [discriminate |]. split; [concrete |]. split; [lia |].
  apply (write_returns_bytes_stored lp64 first_free lp64_ok first_free_fresh
           k_hello_world ns_hello_world gfp_all_ok world 9 11
           store_inv_hello_world);
    [reflexivity | reflexivity | reflexivity | discriminate
    | concrete | concrete | concrete | concrete | concrete].
Defined.


(** X8 at the read of 5 bytes at offset -3 on an LP64 kernel. *)
Lemma read_negative_offset_by_data_model_witness :
  0 <= proc_entry_list_size k_hello_world <= SSIZE_MAX lp64 /\
  5 <> 0 /\ - LOFF_MAX - 1 <= -3 < 0 /\
  read_proc_module lp64 10 5 (-3) k_hello_world
  = Some ({| rd_retval := if lp64 =? 64 then 0 else - EINVAL;
             rd_offset := -3; rd_data := [] |}, k_hello_world).
Proof.
  split; [concrete |]. split; [lia |]. split; [concrete |].
  apply (read_negative_offset_by_data_model lp64 lp64_ok k_hello_world 10 5 (-3));
    [concrete | lia | concrete].
Defined.

(** X9 at a write of "hello" after which offset 7 is read again. *)
Lemma appends_do_not_disturb_reads_witness :
  store_inv k_hello_world ns_hello_world /\
  0 <= 7 < proc_entry_list_size k_hello_world /\
  exists w k' r,
    write_proc_module lp64 first_free gfp_all_ok hello 5 11 k_hello_world
    = Some (w, k') /\
    read_proc_module lp64 10 10 7 k_hello_world = Some (r, k_hello_world) /\
    read_proc_module lp64 10 10 7 k' = Some (r, k').
Proof.
  split; [exact store_inv_hello_world |]. split; [concrete |].
  apply (appends_do_not_disturb_reads lp64 first_free lp64_ok first_free_fresh
           k_hello_world ns_hello_world gfp_all_ok hello 5 11 10 10 7
           store_inv_hello_world); concrete.
Defined.

(** X10 at a write of "hello" read back at offset 11. *)
Lemma read_returns_what_write_stored_witness :
  store_inv k_hello_world ns_hello_world /\
  hello <> [] /\
  exists w k',
    write_proc_module lp64 first_free gfp_all_ok hello 5 11 k_hello_world
    = Some (w, k') /\
    read_proc_module lp64 8 8 (proc_entry_list_size k_hello_world) k'
    = Some ({| rd_retval := Z.min 5 (blen hello);
               rd_offset := proc_entry_list_size k_hello_world
                            + Z.min 5 (blen hello);
               rd_data := wr_transfer hello 5 |}, k').
Proof.
  split; [exact store_inv_hello_world |]. split; [discriminate |].
  apply (read_returns_what_write_stored lp64 first_free lp64_ok first_free_fresh
           k_hello_world ns_hello_world gfp_all_ok hello 5 11 8 8
           store_inv_hello_world);
    [reflexivity | reflexivity | reflexivity | discriminate
    | concrete | concrete | concrete | concrete | concrete].
Defined.
